(** * WorthyPokemons: a shallow embedding of [WorthyPokemons.py]

    The development follows the source file top to bottom: the type
    effectiveness engine, the name classification helpers, the remote data
    gateway with its two caches, the legendary check, and the per-entity
    analysis loop of [main] with the final ranking. *)

From Stdlib Require Import ZArith Ascii String List Sorting.Sorted Permutation.
From stdpp Require Import base decidable option list gmap sets strings pretty.
From stdpp Require Import sorting.
Import ListNotations.

Local Open Scope string_scope.
Local Open Scope Z_scope.

(** ** Type effectiveness engine *)

(** An entry of a damage-relation list: a dict with the type's ['name'] and
    its ['url'].  Only ['name'] is read. *)
Record type_ref := TypeRef { tr_name : string; tr_url : string }.

(** [type_chart[t]]: the ['damage_relations'] dict of a type. *)
Record relations := Relations {
  no_damage_from : list type_ref;
  half_damage_from : list type_ref;
  double_damage_from : list type_ref;
  no_damage_to : list type_ref;
  half_damage_to : list type_ref;
  double_damage_to : list type_ref
}.

(** The three local sets of [calculate_defensive_effectiveness]. *)
Record tiers := Tiers {
  immunities : gset string;
  quarter_damage : gset string;
  half_damage : gset string
}.

Definition empty_tiers : tiers := Tiers ∅ ∅ ∅.

(** Body of [for immunity in relations['no_damage_from']]. *)
Definition add_immunity (s : tiers) (immunity : type_ref) : tiers :=
  Tiers ({[tr_name immunity]} ∪ immunities s) (quarter_damage s) (half_damage s).

(** Body of [for resistance in relations['half_damage_from']]: the
    if/elif/elif/else chain.  [half_damage.remove] is only reached when the
    name is a member, so it never raises. *)
Definition add_resistance (s : tiers) (resistance : type_ref) : tiers :=
  let resistance_type := tr_name resistance in
  if decide (resistance_type ∈ immunities s) then s
  else if decide (resistance_type ∈ quarter_damage s) then s
  else if decide (resistance_type ∈ half_damage s) then
    Tiers (immunities s)
          ({[resistance_type]} ∪ quarter_damage s)
          (half_damage s ∖ {[resistance_type]})
  else
    Tiers (immunities s) (quarter_damage s) ({[resistance_type]} ∪ half_damage s).

(** One iteration of [for poke_type in pokemon_types], after the chart
    lookup succeeded. *)
Definition process_relations (s : tiers) (r : relations) : tiers :=
  fold_left add_resistance (half_damage_from r)
    (fold_left add_immunity (no_damage_from r) s).

(** The outer loop; [None] is the [KeyError] of [type_chart[poke_type]]. *)
Fixpoint process_types (pokemon_types : list string)
    (type_chart : gmap string relations) (s : tiers) : option tiers :=
  match pokemon_types with
  | [] => Some s
  | poke_type :: rest =>
      match type_chart !! poke_type with
      | None => None
      | Some r => process_types rest type_chart (process_relations s r)
      end
  end.

Definition tiers_total (s : tiers) : nat :=
  (size (immunities s) + size (quarter_damage s) + size (half_damage s))%nat.

Definition calculate_defensive_effectiveness (pokemon_types : list string)
    (type_chart : gmap string relations) : option nat :=
  tiers_total <$> process_types pokemon_types type_chart empty_tiers.

(** The attacking types named in the [no_damage_from] or [half_damage_from]
    lists of at least one of the entity's types. *)
Definition names_of (l : list type_ref) : gset string :=
  list_to_set (map tr_name l).

Definition resisted_names (pokemon_types : list string)
    (type_chart : gmap string relations) : gset string :=
  ⋃ (map (fun t => match type_chart !! t with
                   | Some r => names_of (no_damage_from r) ∪ names_of (half_damage_from r)
                   | None => ∅
                   end) pokemon_types).

(** The names held by at least one of the three sets, and those counted
    twice: immune and also in one of the two resistance sets. *)
Definition resisted (s : tiers) : gset string :=
  immunities s ∪ quarter_damage s ∪ half_damage s.

Definition counted_twice (s : tiers) : gset string :=
  immunities s ∩ (quarter_damage s ∪ half_damage s).

(** Where an attacking type [x] stands in the three sets, as long as no
    immunity to it is met: nowhere, in [half_damage] only, or in
    [quarter_damage] only. *)
Definition unresisted (x : string) (s : tiers) : Prop :=
  (x ∉ immunities s) ∧ (x ∉ quarter_damage s) ∧ (x ∉ half_damage s).
Definition halved (x : string) (s : tiers) : Prop :=
  (x ∉ immunities s) ∧ (x ∉ quarter_damage s) ∧ x ∈ half_damage s.
Definition quartered (x : string) (s : tiers) : Prop :=
  (x ∉ immunities s) ∧ x ∈ quarter_damage s ∧ (x ∉ half_damage s).

(** Resisted at least [n] times, saturating at two. *)
Definition resisted_at_least (x : string) (n : nat) (s : tiers) : Prop :=
  match n with
  | O => unresisted x s ∨ halved x s ∨ quartered x s
  | 1%nat => halved x s ∨ quartered x s
  | _ => quartered x s
  end.
Arguments resisted_at_least : simpl never.

(** A type of the chart that is not immune to [x], and one that halves it. *)
Definition not_immune (x : string) (chart : gmap string relations) (t : string) : Prop :=
  ∀ r, chart !! t = Some r → x ∉ names_of (no_damage_from r).

Definition halves (x : string) (chart : gmap string relations) (t : string) : Prop :=
  ∃ r, chart !! t = Some r ∧ x ∈ names_of (half_damage_from r).

(** How many of the three sets hold a name: what it adds to the score. *)
Definition contribution (x : string) (s : tiers) : nat :=
  ((if decide (x ∈ immunities s) then 1 else 0)
   + (if decide (x ∈ quarter_damage s) then 1 else 0)
   + (if decide (x ∈ half_damage s) then 1 else 0))%nat.

(** ** Strings as Python uses them (ASCII) *)

(** Catalog names are lower-case ASCII words joined by hyphens, so the
    case conversions are modelled on ASCII letters; other bytes are left
    unchanged. *)
Definition is_upper (c : ascii) : bool :=
  let n := N_of_ascii c in ((65 <=? n) && (n <=? 90))%N.

Definition is_lower (c : ascii) : bool :=
  let n := N_of_ascii c in ((97 <=? n) && (n <=? 122))%N.

Definition to_lower (c : ascii) : ascii :=
  if is_upper c then ascii_of_N (N_of_ascii c + 32) else c.

Definition to_upper (c : ascii) : ascii :=
  if is_lower c then ascii_of_N (N_of_ascii c - 32) else c.

(** [s.lower()] and [s.upper()]. *)
Fixpoint lower (s : string) : string :=
  match s with
  | EmptyString => EmptyString
  | String c s' => String (to_lower c) (lower s')
  end.

Fixpoint upper (s : string) : string :=
  match s with
  | EmptyString => EmptyString
  | String c s' => String (to_upper c) (upper s')
  end.

(** [s.title()]: a letter is upper-cased when the previous character is
    not a letter and lower-cased otherwise. *)
Fixpoint title_from (previous_is_cased : bool) (s : string) : string :=
  match s with
  | EmptyString => EmptyString
  | String c s' =>
      if is_lower c then
        String (if previous_is_cased then c else to_upper c) (title_from true s')
      else if is_upper c then
        String (if previous_is_cased then to_lower c else c) (title_from true s')
      else String c (title_from false s')
  end.

Definition title (s : string) : string := title_from false s.

(** [needle in hay] on strings. *)
Fixpoint contains (needle hay : string) : bool :=
  if String.prefix needle hay then true
  else match hay with
       | EmptyString => false
       | String _ hay' => contains needle hay'
       end.

(** [s.startswith(p)]. *)
Definition startswith (s p : string) : bool := String.prefix p s.

(** [s.split(sep)] for a one-character separator: never empty. *)
Fixpoint split (sep : ascii) (s : string) : list string :=
  match s with
  | EmptyString => [EmptyString]
  | String c s' =>
      if Ascii.eqb c sep then EmptyString :: split sep s'
      else match split sep s' with
           | [] => [String c EmptyString]
           | part :: parts => String c part :: parts
           end
  end.

(** [sep.join(parts)]. *)
Fixpoint join (sep : string) (parts : list string) : string :=
  match parts with
  | [] => EmptyString
  | [part] => part
  | part :: rest => part ++ sep ++ join sep rest
  end.

(** [s.isdigit()] on ASCII text: non-empty and digits only. *)
Definition is_digit (c : ascii) : bool :=
  let n := N_of_ascii c in ((48 <=? n) && (n <=? 57))%N.

Fixpoint all_digits (s : string) : bool :=
  match s with
  | EmptyString => true
  | String c s' => is_digit c && all_digits s'
  end.

Definition isdigit (s : string) : bool :=
  match s with
  | EmptyString => false
  | _ => all_digits s
  end.

(** [str(n)] for an integer. *)
Definition str (n : Z) : string := pretty n.

(** [sorted] on a list of strings (insertion sort, code-point order). *)
Fixpoint insert_sorted (x : string) (l : list string) : list string :=
  match l with
  | [] => [x]
  | y :: l' => if String.leb x y then x :: l else y :: insert_sorted x l'
  end.

Definition sorted (l : list string) : list string := foldr insert_sorted [] l.

(** ** Entity classification and normalization *)

Definition hyphenated_species : list string :=
  ["kommo-o"; "hakamo-o"; "jangmo-o"; "type-null"; "ho-oh"; "porygon-z"].

Definition is_special_form (pokemon_name : string) : bool :=
  let exceptions := hyphenated_species in
  if contains "-" pokemon_name && negb (bool_decide (pokemon_name ∈ exceptions))
  then true else false.

Definition is_gmax_or_gender_form (pokemon_name : string) : bool :=
  let gmax_indicators := ["gmax-"; "gigantamax-"] in
  let gender_indicators := ["-male"; "-female"] in
  existsb (fun indicator => contains indicator (lower pokemon_name))
          (gmax_indicators ++ gender_indicators).

Definition prefix_forms : gmap string string :=
  list_to_map [("mega", "Mega"); ("alolan", "Alolan"); ("galarian", "Galarian");
               ("hisuian", "Hisuian"); ("paldean", "Paldean"); ("primal", "Primal")].

Definition format_pokemon_name (pokemon_name : string) : string :=
  let exceptions := hyphenated_species in
  if bool_decide (lower pokemon_name ∈ exceptions) then title pokemon_name
  else if negb (contains "-" pokemon_name) then title pokemon_name
  else
    let parts := split "-" pokemon_name in
    let base_name := title (hd "" parts) in
    let form_name := join "-" (tl parts) in
    match prefix_forms !! lower form_name with
    | Some prefix => prefix ++ " " ++ base_name
    | None =>
        if startswith (lower form_name) "mega" then
          if (2 <? length parts)%nat
          then "Mega " ++ base_name ++ " " ++ upper (List.last parts "")
          else "Mega " ++ base_name
        else base_name ++ " (" ++ title form_name ++ ")"
    end.

Definition ultra_beasts : list string :=
  ["nihilego"; "buzzwole"; "pheromosa"; "xurkitree"; "celesteela";
   "kartana"; "guzzlord"; "poipole"; "naganadel"; "stakataka"; "blacephalon"].

Definition paradox_pokemon : list string :=
  ["great-tusk"; "scream-tail"; "brute-bonnet"; "flutter-mane"; "slither-wing";
   "sandy-shocks"; "iron-treads"; "iron-bundle"; "iron-hands"; "iron-jugulis";
   "iron-moth"; "iron-thorns"; "iron-valiant"; "roaring-moon"; "iron-leaves";
   "walking-wake"; "gouging-fire"; "raging-bolt"; "iron-boulder"; "iron-crown"].

Definition is_excluded_pokemon (pokemon_name : string) : bool :=
  bool_decide (pokemon_name ∈ ultra_beasts) || bool_decide (pokemon_name ∈ paradox_pokemon).

Definition form_indicators : list string :=
  ["mega"; "alolan"; "galarian"; "hisuian"; "paldean";
   "primal"; "eternamax"; "gmax"; "gigantamax"].

Definition get_base_form_name (pokemon_name : string) : string :=
  let base_name := hd "" (split "-" pokemon_name) in
  if bool_decide (lower base_name ∈ form_indicators)
     && (1 <? length (split "-" pokemon_name))%nat
  then nth 1 (split "-" pokemon_name) ""
  else base_name.

(** ** Catalog records *)

(** An element of [pokemon_data['types']]: [t['type']['name']] and its slot. *)
Record type_slot := TypeSlot { slot : Z; type_name : string }.

(** An element of [pokemon_data['stats']]: [stat['base_stat']] and the
    stat's name. *)
Record stat := Stat { stat_name : string; base_stat : Z }.

(** The entity detail record, with the keys the program reads. *)
Record pokemon_data := PokemonData {
  pd_id : Z;
  pd_name : string;
  pd_types : list type_slot;
  pd_stats : list stat
}.

(** The species record.  The synthesized default has no ['id'] key. *)
Record species_data := SpeciesData {
  sp_id : option Z;
  is_legendary : bool;
  is_mythical : bool
}.

Definition default_data : species_data := SpeciesData None false false.

(** An entry of the catalog listing returned by [get_all_pokemon]. *)
Record listing := Listing { l_name : string; l_url : string }.

(** [(tuple(types), tuple(stats))]. *)
Definition signature : Type := list string * list Z.

Definition get_pokemon_signature (data : pokemon_data) : signature :=
  let types := sorted (map type_name (pd_types data)) in
  let stats := map base_stat (pd_stats data) in
  (types, stats).

(** A row of [results]. *)
Record result_row := ResultRow {
  row_name : string;
  row_id : Z;
  row_types : string;
  base_stats_total : Z;
  defensive_advantages : nat
}.

(** ** Remote data gateway *)

(** What [int(response.headers.get('Retry-After', ...))] reads when the
    header is present: an integer, or text on which [int] raises
    [ValueError]. *)
Inductive retry_after_header := Seconds (n : Z) | NotAnInteger.

(** A response of [requests.get]: [body = None] when [response.json()]
    raises a decode error; a body that decodes is a well-formed record of
    the kind the URL asks for. *)
Record response (A : Type) := Response {
  status_code : Z;
  retry_after : option retry_after_header;
  body : option A
}.
Arguments Response {A} _ _ _.
Arguments status_code {A} _.
Arguments retry_after {A} _.
Arguments body {A} _.

(** [requests.get] either raises a [RequestException] or answers. *)
Inductive http_result (A : Type) := ConnectionFailed | Answer (r : response A).
Arguments ConnectionFailed {A}.
Arguments Answer {A} _.

(** A pause of [time.sleep]: whole seconds in the gateway, and the
    half-second cooldown of the analysis loop. *)
Inductive pause := Wait (seconds : Z) | Cooldown.

(** The outside world and the two caches.  The remote service is an oracle
    indexed by the number of requests already made, so it may answer the
    same URL differently each time. *)
Record world := World {
  pokemon_endpoint : nat → string → http_result pokemon_data;
  species_endpoint : nat → string → http_result species_data;
  requests_made : nat;
  slept : list pause;
  pokemon_details_cache : gmap string pokemon_data;
  species_info_cache : gmap Z species_data
}.

Inductive exn :=
  | RequestException
  | JSONDecodeError
  | ValueError
  | OverflowError
  | KeyError
  | TypeError
  | FailedAfter (what : string) (attempts : nat).

Inductive result (A : Type) := Ok (a : A) | Raise (e : exn).
Arguments Ok {A} _.
Arguments Raise {A} _.

(** Computations that read and change the world and may raise. *)
Definition M (A : Type) : Type := world → result A * world.

Definition ret {A} (a : A) : M A := fun w => (Ok a, w).
Definition raise {A} (e : exn) : M A := fun w => (Raise e, w).
Definition bind {A B} (m : M A) (k : A → M B) : M B :=
  fun w => match m w with
           | (Ok a, w') => k a w'
           | (Raise e, w') => (Raise e, w')
           end.

(** [try: m except Exception: h]. *)
Definition try_except {A} (m : M A) (h : exn → M A) : M A :=
  fun w => match m w with
           | (Ok a, w') => (Ok a, w')
           | (Raise e, w') => h e w'
           end.

#[global] Instance M_ret : MRet M := @ret.
#[global] Instance M_bind : MBind M := fun A B k m => bind m k.

Definition tick (w : world) : world :=
  World (pokemon_endpoint w) (species_endpoint w) (S (requests_made w)) (slept w)
        (pokemon_details_cache w) (species_info_cache w).

Definition requests_get_pokemon (url : string) : M (response pokemon_data) :=
  fun w => match pokemon_endpoint w (requests_made w) url with
           | ConnectionFailed => (Raise RequestException, tick w)
           | Answer r => (Ok r, tick w)
           end.

Definition requests_get_species (url : string) : M (response species_data) :=
  fun w => match species_endpoint w (requests_made w) url with
           | ConnectionFailed => (Raise RequestException, tick w)
           | Answer r => (Ok r, tick w)
           end.

(** [response.json()]. *)
Definition json {A} (r : response A) : M A :=
  match body r with
  | Some a => ret a
  | None => raise JSONDecodeError
  end.

(** The largest whole number of seconds [time.sleep] accepts: the length is
    converted to nanoseconds in a signed 64-bit integer. *)
Definition max_sleep : Z := 9223372036.

(** [time.sleep(seconds)]: a length whose nanoseconds do not fit raises
    [OverflowError], whatever its sign; a negative length that fits raises
    [ValueError]. *)
Definition sleep (seconds : Z) : M unit :=
  fun w =>
    if (seconds <? - max_sleep) || (max_sleep <? seconds) then (Raise OverflowError, w)
    else if seconds <? 0 then (Raise ValueError, w)
    else (Ok tt, World (pokemon_endpoint w) (species_endpoint w) (requests_made w)
                       (slept w ++ [Wait seconds])
                       (pokemon_details_cache w) (species_info_cache w)).

Definition cooldown : M unit :=
  fun w => (Ok tt, World (pokemon_endpoint w) (species_endpoint w) (requests_made w)
                         (slept w ++ [Cooldown])
                         (pokemon_details_cache w) (species_info_cache w)).

(** [int(response.headers.get('Retry-After', retry_delay * 2))]. *)
Definition retry_after_seconds {A} (r : response A) (retry_delay : Z) : M Z :=
  match retry_after r with
  | None => ret (retry_delay * 2)
  | Some (Seconds n) => ret n
  | Some NotAnInteger => raise ValueError
  end.

Definition store_details (url : string) (data : pokemon_data) : M unit :=
  fun w => (Ok tt, World (pokemon_endpoint w) (species_endpoint w) (requests_made w)
                         (slept w) (<[url := data]> (pokemon_details_cache w))
                         (species_info_cache w)).

Definition store_species (pokemon_id : Z) (data : species_data) : M unit :=
  fun w => (Ok tt, World (pokemon_endpoint w) (species_endpoint w) (requests_made w)
                         (slept w) (pokemon_details_cache w)
                         (<[pokemon_id := data]> (species_info_cache w))).

(** The [except (json.JSONDecodeError, requests.RequestException)] clause:
    other exceptions pass through. *)
Definition is_fetch_error (e : exn) : bool :=
  match e with
  | RequestException | JSONDecodeError => true
  | _ => false
  end.

(** How one iteration of a retry loop ends: with a [return], or by moving
    on to the next attempt (carrying the URL to request next). *)
Inductive step_end (A : Type) := Return (a : A) | NextAttempt (url : string).
Arguments Return {A} _.
Arguments NextAttempt {A} _.

(** One iteration of [for attempt in range(max_retries)] in
    [get_pokemon_details]: the [try] block and its [except] clause. *)
Definition details_attempt (url : string) (max_retries : nat) (retry_delay : Z)
    (attempt : nat) : M (step_end (option pokemon_data)) :=
  try_except
    (response ← requests_get_pokemon url;
     if status_code response =? 200 then
       pokemon_data ← json response;
       store_details url pokemon_data;;
       ret (Return (Some pokemon_data))
     else if status_code response =? 429 then
       wait ← retry_after_seconds response retry_delay;
       sleep wait;;
       ret (NextAttempt url)
     else
       sleep retry_delay;;
       ret (NextAttempt url))
    (fun e =>
       if is_fetch_error e then
         if Z.of_nat attempt <? Z.of_nat max_retries - 1 then
           sleep retry_delay;;
           ret (NextAttempt url)
         else raise (FailedAfter "data" max_retries)
       else raise e).

(** The loop over the attempts still to run; falling out of it is
    [return None]. *)
Fixpoint details_attempts (url : string) (max_retries : nat) (retry_delay : Z)
    (attempts : list nat) : M (option pokemon_data) :=
  match attempts with
  | [] => ret None
  | attempt :: later =>
      r ← details_attempt url max_retries retry_delay attempt;
      match r with
      | Return data => ret data
      | NextAttempt _ => details_attempts url max_retries retry_delay later
      end
  end.

Definition cached_details (url : string) : M (option pokemon_data) :=
  fun w => (Ok (pokemon_details_cache w !! url), w).

Definition get_pokemon_details (url : string) (max_retries : nat) (retry_delay : Z)
    : M (option pokemon_data) :=
  hit ← cached_details url;
  match hit with
  | Some data => ret (Some data)
  | None => details_attempts url max_retries retry_delay (seq 0 max_retries)
  end.

Definition species_url (id_text : string) : string :=
  "https://pokeapi.co/api/v2/pokemon-species/" ++ id_text ++ "/".

(** One iteration of the loop of [get_species_info]; [url] is the loop's
    current value of the variable [url]. *)
Definition species_attempt (pokemon_id : Z) (max_retries : nat) (retry_delay : Z)
    (url : string) (attempt : nat) : M (step_end species_data) :=
  try_except
    (response ← requests_get_species url;
     if status_code response =? 200 then
       species_data ← json response;
       store_species pokemon_id species_data;;
       ret (Return species_data)
     else if status_code response =? 404 then
       let base_id := hd "" (split "-" (str pokemon_id)) in
       if isdigit base_id then ret (NextAttempt (species_url base_id))
       else
         store_species pokemon_id default_data;;
         ret (Return default_data)
     else if status_code response =? 429 then
       wait ← retry_after_seconds response retry_delay;
       sleep wait;;
       ret (NextAttempt url)
     else
       sleep retry_delay;;
       ret (NextAttempt url))
    (fun e =>
       if is_fetch_error e then
         if Z.of_nat attempt <? Z.of_nat max_retries - 1 then
           sleep retry_delay;;
           ret (NextAttempt url)
         else raise (FailedAfter "species data" max_retries)
       else raise e).

(** The loop, and after it the default record stored and returned. *)
Fixpoint species_attempts (pokemon_id : Z) (max_retries : nat) (retry_delay : Z)
    (url : string) (attempts : list nat) : M species_data :=
  match attempts with
  | [] =>
      store_species pokemon_id default_data;;
      ret default_data
  | attempt :: later =>
      r ← species_attempt pokemon_id max_retries retry_delay url attempt;
      match r with
      | Return data => ret data
      | NextAttempt url' => species_attempts pokemon_id max_retries retry_delay url' later
      end
  end.

Definition cached_species (pokemon_id : Z) : M (option species_data) :=
  fun w => (Ok (species_info_cache w !! pokemon_id), w).

Definition get_species_info (pokemon_id : Z) (max_retries : nat) (retry_delay : Z)
    : M species_data :=
  hit ← cached_species pokemon_id;
  match hit with
  | Some data => ret data
  | None =>
      species_attempts pokemon_id max_retries retry_delay
        (species_url (str pokemon_id)) (seq 0 max_retries)
  end.

(** An answer that yields no record: no answer at all, a status other
    than 200, or a body that does not decode. *)
Definition no_record {A} (h : http_result A) : Prop :=
  match h with
  | ConnectionFailed => True
  | Answer resp => status_code resp ≠ 200 ∨ body resp = None
  end.

(** [time.sleep] refuses a wait of [d] seconds with [e]. *)
Definition wait_refused (e : exn) (d : Z) : Prop :=
  (e = OverflowError ∧ (d < - max_sleep ∨ max_sleep < d)) ∨
  (e = ValueError ∧ - max_sleep ≤ d < 0).

(** The wait due after an answer that yields no record raises [e]: after
    a 429 the text of the Retry-After header is not an integer, or the wait
    it asks for (twice the retry delay without the header) is refused;
    after anything else the retry delay is refused. *)
Definition pause_refused {A} (retry_delay : Z) (e : exn) (h : http_result A) : Prop :=
  match h with
  | Answer resp =>
      if status_code resp =? 429 then
        match retry_after resp with
        | Some NotAnInteger => e = ValueError
        | Some (Seconds n) => wait_refused e n
        | None => wait_refused e (retry_delay * 2)
        end
      else wait_refused e retry_delay
  | ConnectionFailed => wait_refused e retry_delay
  end.

(** What running [budget] attempts of the detail loop can end in, given
    the world [w] before and [w'] after.  The [k]-th request from [w] on is
    answered by [pokemon_endpoint w (requests_made w + k) url].  The loop
    ends in a record read from the first 200 response that decodes, which
    is stored; in [None] once every attempt is used up without a record and
    the last one was answered with another status; in the function's own
    failure when every attempt is used up without a record and the last one
    met a transport or decoding error; or in the [ValueError] or
    [OverflowError] of the first wait that cannot be read or slept. *)
Definition attempts_outcome (url : string) (max_retries : nat) (retry_delay : Z)
    (budget : nat) (w : world) (r : result (option pokemon_data)) (w' : world)
    : Prop :=
  let answer k := pokemon_endpoint w (requests_made w + k)%nat url in
  match r with
  | Ok (Some data) =>
      ∃ k resp, (k < budget)%nat ∧
        answer k = Answer resp ∧
        status_code resp = 200 ∧ body resp = Some data ∧
        requests_made w' = (requests_made w + S k)%nat ∧
        pokemon_details_cache w' = <[url := data]> (pokemon_details_cache w) ∧
        ∀ j, (j < k)%nat → no_record (answer j)
  | Ok None =>
      requests_made w' = (requests_made w + budget)%nat ∧
      pokemon_details_cache w' = pokemon_details_cache w ∧
      (∀ k, S k = budget →
         ∃ resp, answer k = Answer resp ∧ status_code resp ≠ 200) ∧
      ∀ j, (j < budget)%nat → no_record (answer j)
  | Raise (FailedAfter what attempts) =>
      what = "data" ∧ attempts = max_retries ∧
      requests_made w' = (requests_made w + budget)%nat ∧
      pokemon_details_cache w' = pokemon_details_cache w ∧
      (∃ k, S k = budget ∧
         (answer k = ConnectionFailed ∨
          ∃ resp, answer k = Answer resp ∧
                  status_code resp = 200 ∧ body resp = None)) ∧
      ∀ j, (j < budget)%nat → no_record (answer j)
  | Raise (ValueError as e) | Raise (OverflowError as e) =>
      pokemon_details_cache w' = pokemon_details_cache w ∧
      ∃ k, (k < budget)%nat ∧
        requests_made w' = (requests_made w + S k)%nat ∧
        pause_refused retry_delay e (answer k) ∧
        ∀ j, (j ≤ k)%nat → no_record (answer j)
  | Raise _ => False
  end.







(** ** Legendary check and National Dex number *)

Definition pokemon_url (name : string) : string :=
  "https://pokeapi.co/api/v2/pokemon/" ++ name ++ "/".

(** The [try] block of [is_legendary_or_mythical]; running off its end is
    the final [return False]. *)
Definition legendary_check (pokemon_name : string) (pokemon_id : Z) : M bool :=
  species_data ← get_species_info pokemon_id 3 1;
  if is_legendary species_data || is_mythical species_data then ret true
  else if is_special_form pokemon_name then
    let base_name := get_base_form_name pokemon_name in
    let base_url := pokemon_url base_name in
    base_data ← get_pokemon_details base_url 3 1;
    match base_data with
    | Some base =>
        species_data ← get_species_info (pd_id base) 3 1;
        ret (is_legendary species_data || is_mythical species_data)
    | None => ret false
    end
  else ret false.

Definition is_legendary_or_mythical (pokemon_name : string) (pokemon_id : Z) : M bool :=
  try_except (legendary_check pokemon_name pokemon_id) (fun _ => ret true).

(** Either flag of a species record. *)
Definition flagged (species : species_data) : bool :=
  is_legendary species || is_mythical species.

(** The three ways [is_legendary_or_mythical] comes to answer [False] from
    world [w], ending in [w']: the entity's own species record carries no
    flag and the entity is no special form; or it is one and its base form's
    detail fetch gave no record; or the base form's species record carries
    no flag either. *)
Definition cleared (pokemon_name : string) (pokemon_id : Z) (w w' : world) : Prop :=
  ∃ own w1,
    get_species_info pokemon_id 3 1 w = (Ok own, w1) ∧ flagged own = false ∧
    ((is_special_form pokemon_name = false ∧ w' = w1)
     ∨ (is_special_form pokemon_name = true ∧
        get_pokemon_details (pokemon_url (get_base_form_name pokemon_name)) 3 1 w1
          = (Ok None, w'))
     ∨ (is_special_form pokemon_name = true ∧
        ∃ base w2 base_species,
          get_pokemon_details (pokemon_url (get_base_form_name pokemon_name)) 3 1 w1
            = (Ok (Some base), w2) ∧
          get_species_info (pd_id base) 3 1 w2 = (Ok base_species, w') ∧
          flagged base_species = false)).

Definition get_national_dex_number (pokemon_name : string) (pokemon_id : Z) : M Z :=
  try_except
    (species_data ← get_species_info pokemon_id 3 1;
     match sp_id species_data with
     | Some n => ret n
     | None => ret pokemon_id
     end)
    (fun _ => ret pokemon_id).

(** ** Analysis pipeline *)

(** The three variables the loop of [main] updates. *)
Record analysis := Analysis {
  results : list result_row;
  error_count : nat;
  processed_signatures : gmap (string * signature) bool
}.

Definition fresh_analysis : analysis := Analysis [] 0 ∅.

(** How the loop body ends for one entity: by one of its [continue]
    statements, by appending a row (under the key it recorded), or in the
    [except] clause. *)
Inductive verdict :=
  | Denylisted
  | NoRecord
  | LegendaryOrMythical
  | BelowThreshold
  | SameAsBase
  | Duplicate
  | Included (key : string * signature) (row : result_row)
  | Errored (e : exn).

(** What the first part of the loop body hands to the second. *)
Record candidate := Candidate {
  c_data : pokemon_data;
  c_dex : Z;
  c_total : Z;
  c_signature : signature;
  c_base_name : string
}.

Inductive screening := Skip (why : verdict) | Keep (c : candidate).

(** [sum(stat['base_stat'] for stat in pokemon_data['stats'])]. *)
Definition stats_total (data : pokemon_data) : Z :=
  fold_left Z.add (map base_stat (pd_stats data)) 0.

(** The inner [try] of the loop body: [true] stands for its [continue].
    With no base record, [get_pokemon_signature(None)] raises, and the bare
    [except] passes. *)
Definition same_as_base (base_name : string) (pokemon_signature : signature) : M bool :=
  try_except
    (base_data ← get_pokemon_details (pokemon_url base_name) 3 1;
     match base_data with
     | Some base =>
         ret (bool_decide (get_pokemon_signature base = pokemon_signature))
     | None => raise TypeError
     end)
    (fun _ => ret false).

(** From the signature on: the base-form comparison and the duplicate test. *)
Definition screen_signature (seen : gmap (string * signature) bool)
    (data : pokemon_data) (dex total : Z) : M screening :=
  let pokemon_signature := get_pokemon_signature data in
  let base_name := get_base_form_name (pd_name data) in
  skip ← (if bool_decide (base_name ≠ pd_name data)
          then same_as_base base_name pokemon_signature
          else ret false);
  if skip : bool then ret (Skip SameAsBase)
  else
    let signature_key := (base_name, pokemon_signature) in
    match seen !! signature_key with
    | Some _ => ret (Skip Duplicate)
    | None => ret (Keep (Candidate data dex total pokemon_signature base_name))
    end.

(** From the base-stat total on. *)
Definition screen_threshold (min_bst : Z) (seen : gmap (string * signature) bool)
    (data : pokemon_data) (dex : Z) : M screening :=
  let total := stats_total data in
  if total <? min_bst then ret (Skip BelowThreshold)
  else screen_signature seen data dex total.

(** The loop body up to the duplicate test. *)
Definition screen (min_bst : Z) (seen : gmap (string * signature) bool)
    (pokemon : listing) : M screening :=
  if is_excluded_pokemon (l_name pokemon) then ret (Skip Denylisted)
  else
    fetched ← get_pokemon_details (l_url pokemon) 3 1;
    match fetched with
    | None => ret (Skip NoRecord)
    | Some data =>
        let pokemon_id := pd_id data in
        national_dex_no ← get_national_dex_number (pd_name data) pokemon_id;
        legendary ← is_legendary_or_mythical (pd_name data) pokemon_id;
        if legendary : bool then ret (Skip LegendaryOrMythical)
        else screen_threshold min_bst seen data national_dex_no
    end.

Definition count_error (a : analysis) : analysis :=
  Analysis (results a) (S (error_count a)) (processed_signatures a).

Definition record_key (key : string * signature) (a : analysis) : analysis :=
  Analysis (results a) (error_count a) (<[key := true]> (processed_signatures a)).

Definition append_row (row : result_row) (a : analysis) : analysis :=
  Analysis (results a ++ [row]) (error_count a) (processed_signatures a).

(** The rest of the loop body: record the key, score, append the row, and
    pause after every twentieth row. *)
Definition accept (type_chart : gmap string relations) (c : candidate)
    (a : analysis) (w : world) : verdict * analysis * world :=
  let signature_key := (c_base_name c, c_signature c) in
  let a := record_key signature_key a in
  let pokemon_types := map type_name (pd_types (c_data c)) in
  match calculate_defensive_effectiveness pokemon_types type_chart with
  | None => (Errored KeyError, count_error a, w)
  | Some defensive_score =>
      let row := ResultRow (format_pokemon_name (pd_name (c_data c)))
                           (c_dex c)
                           (join ", " (map title pokemon_types))
                           (c_total c)
                           defensive_score in
      let a := append_row row a in
      let w := if (length (results a) mod 20 =? 0)%nat then snd (cooldown w) else w in
      (Included signature_key row, a, w)
  end.

(** One iteration of [for pokemon in tqdm(all_pokemon)], with its
    [try]/[except Exception]. *)
Definition analyse (min_bst : Z) (type_chart : gmap string relations)
    (pokemon : listing) (a : analysis) (w : world) : verdict * analysis * world :=
  match screen min_bst (processed_signatures a) pokemon w with
  | (Raise e, w') => (Errored e, count_error a, w')
  | (Ok (Skip why), w') => (why, a, w')
  | (Ok (Keep c), w') => accept type_chart c a w'
  end.

(** The whole loop, with the verdicts in order. *)
Fixpoint analyse_all (min_bst : Z) (type_chart : gmap string relations)
    (all_pokemon : list listing) (a : analysis) (w : world)
    : list verdict * analysis * world :=
  match all_pokemon with
  | [] => ([], a, w)
  | pokemon :: rest =>
      let '(v, a', w') := analyse min_bst type_chart pokemon a w in
      let '(vs, a'', w'') := analyse_all min_bst type_chart rest a' w' in
      (v :: vs, a'', w'')
  end.

(** The pre-filter of the catalog listing. *)
Definition filter_forms (include_forms : bool) (all_pokemon : list listing)
    : list listing :=
  List.filter (fun pokemon =>
            if is_gmax_or_gender_form (l_name pokemon) then false
            else if negb (is_special_form (l_name pokemon)) then true
            else include_forms) all_pokemon.

(** The entities a run included, in order: the key each was recorded
    under and the row it produced. *)
Fixpoint included (vs : list verdict) : list ((string * signature) * result_row) :=
  match vs with
  | [] => []
  | Included key row :: vs' => (key, row) :: included vs'
  | _ :: vs' => included vs'
  end.

Definition included_keys (vs : list verdict) : list (string * signature) :=
  map fst (included vs).

Definition included_rows (vs : list verdict) : list result_row :=
  map snd (included vs).

(** A verdict of inclusion is keyed by the base-form name and signature of
    the record its row was built from. *)
Definition keyed_by_record (v : verdict) : Prop :=
  match v with
  | Included key row =>
      ∃ data, key = (get_base_form_name (pd_name data), get_pokemon_signature data) ∧
              row_name row = format_pokemon_name (pd_name data) ∧
              base_stats_total row = stats_total data
  | _ => True
  end.

(** ** Ranking *)

(** [df.sort_values(by=['defensive_advantages', 'base_stats_total'],
    ascending=False)]: pandas sorts on several columns with a stable
    lexicographic sort, so rows tied on both columns keep their order.
    [row_before x y] holds when [x] may stand before [y]. *)
Definition row_before (x y : result_row) : bool :=
  (defensive_advantages y <? defensive_advantages x)%nat
  || ((defensive_advantages y =? defensive_advantages x)%nat
      && (base_stats_total y <=? base_stats_total x)).

Fixpoint insert_row (x : result_row) (l : list result_row) : list result_row :=
  match l with
  | [] => [x]
  | y :: l' => if row_before x y then x :: l else y :: insert_row x l'
  end.

Definition sort_values (rows : list result_row) : list result_row :=
  foldr insert_row [] rows.

(** The order of the report: a higher score first, and among equal scores
    a higher base-stat total first. *)
Definition ranks_before (x y : result_row) : Prop :=
  (defensive_advantages y < defensive_advantages x)%nat
  ∨ (defensive_advantages x = defensive_advantages y
     ∧ base_stats_total y ≤ base_stats_total x).

(** Rows tied with [r] on both sort columns. *)
Definition same_rank (r x : result_row) : bool :=
  (defensive_advantages r =? defensive_advantages x)%nat
  && (base_stats_total r =? base_stats_total x).

(** [main] from the pre-filter to the sorted frame; [None] is the early
    return on an empty result list. *)
Definition main (include_forms : bool) (min_bst : Z)
    (type_chart : gmap string relations) (all_pokemon : list listing)
    (w : world) : option (list result_row) * world :=
  let '(_, a, w') :=
    analyse_all min_bst type_chart (filter_forms include_forms all_pokemon)
                fresh_analysis w in
  match results a with
  | [] => (None, w')
  | _ => (Some (sort_values (results a)), w')
  end.

(** ** Sample data *)

(** A fragment of the catalog's chart, enough for the examples. *)
Definition ref (n : string) : type_ref := TypeRef n "".

Definition defends (immune half : list string) : relations :=
  Relations (map ref immune) (map ref half) [] [] [] [].

Definition sample_chart : gmap string relations :=
  list_to_map [
    ("dragon", defends [] ["fire"; "water"; "grass"; "electric"]);
    ("ground", defends ["electric"] ["poison"; "rock"]);
    ("steel", defends ["poison"]
       ["normal"; "grass"; "ice"; "flying"; "psychic"; "bug"; "rock";
        "dragon"; "steel"; "fairy"]);
    ("fairy", defends ["dragon"] ["fighting"; "bug"; "dark"]);
    ("fire", defends [] ["fire"; "grass"; "ice"; "bug"; "steel"; "fairy"]);
    ("electric", defends [] ["flying"; "steel"; "electric"])
  ].

(** A chart in which steel and fairy both halve dragon. *)
Definition stacking_chart : gmap string relations :=
  list_to_map [
    ("steel", defends ["poison"] ["dragon"; "bug"]);
    ("fairy", defends [] ["dragon"; "dark"])
  ].

(** Catalog records and remote services for the examples. *)
Definition pikachu : pokemon_data :=
  PokemonData 25 "pikachu" [TypeSlot 1 "electric"]
    [Stat "hp" 35; Stat "attack" 55; Stat "defense" 40;
     Stat "special-attack" 50; Stat "special-defense" 50; Stat "speed" 90].

Definition pikachu_species : species_data := SpeciesData (Some 25) false false.

Definition fresh_world (pokemon : nat → string → http_result pokemon_data)
    (species : nat → string → http_result species_data) : world :=
  World pokemon species 0 [] ∅ ∅.

Definition always {A} (r : response A) : nat → string → http_result A :=
  fun _ _ => Answer r.

Definition not_found {A} : response A := Response 404 None None.
Definition too_many_requests {A} : response A := Response 429 None None.
Definition found {A} (a : A) : response A := Response 200 None (Some a).

Definition mr_mime_species : species_data := SpeciesData (Some 122) false false.

(** A service that knows the species but has no entity under the URL asked
    for, as for the base name "mr" derived from "mr-mime". *)
Definition missing_entity_world : world :=
  fresh_world (always not_found) (always (found mr_mime_species)).

(** A service that answers with the record at once. *)
Definition pikachu_world : world :=
  fresh_world (always (found pikachu)) (always (found pikachu_species)).


(** A service that is always rate limited. *)
Definition rate_limited_world : world :=
  fresh_world (always too_many_requests) (always too_many_requests).



(** A service that cannot be reached. *)
Definition offline_world : world :=
  fresh_world (fun _ _ => ConnectionFailed) (fun _ _ => ConnectionFailed).

(** The cap-wearing form of pikachu: the same types and stats under
    another name. *)
Definition pikachu_original_cap : pokemon_data :=
  PokemonData 10094 "pikachu-original-cap" (pd_types pikachu) (pd_stats pikachu).

(** A service that knows pikachu and its cap form. *)
Definition cap_world : world :=
  fresh_world
    (fun _ url =>
       if String.eqb url (pokemon_url "pikachu-original-cap")
       then Answer (found pikachu_original_cap)
       else if String.eqb url (pokemon_url "pikachu") then Answer (found pikachu)
       else Answer not_found)
    (always (found pikachu_species)).

(** ** Further notions for the type effectiveness engine *)

(** The attacking types some type of the entity lists in [no_damage_from],
    and those some type lists in [half_damage_from]. *)
Definition immune_names (pokemon_types : list string)
    (type_chart : gmap string relations) : gset string :=
  ⋃ (map (fun t => match type_chart !! t with
                   | Some r => names_of (no_damage_from r)
                   | None => ∅
                   end) pokemon_types).

Definition halved_names (pokemon_types : list string)
    (type_chart : gmap string relations) : gset string :=
  ⋃ (map (fun t => match type_chart !! t with
                   | Some r => names_of (half_damage_from r)
                   | None => ∅
                   end) pokemon_types).

(** A chart entry that resists nothing. *)
Definition resists_nothing (type_chart : gmap string relations) (t : string) : Prop :=
  ∃ r, type_chart !! t = Some r ∧ no_damage_from r = [] ∧ half_damage_from r = [].

(** A chart with two types that resist nothing. *)
Definition plain_chart : gmap string relations :=
  list_to_map [("normal", defends [] []); ("ice", defends [] [])].

(** ** Further notions for the gateway *)

(** What a fetch leaves alone: the remote service itself, and the pauses
    already taken; the request counter only grows, by at most [budget]. *)
Definition same_service (w w' : world) : Prop :=
  pokemon_endpoint w' = pokemon_endpoint w ∧
  species_endpoint w' = species_endpoint w.

Definition requests_within (budget : nat) (w w' : world) : Prop :=
  (requests_made w ≤ requests_made w' ≤ requests_made w + budget)%nat.

(** A service that answers every detail request with a server error. *)
Definition failing_world : world :=
  fresh_world (always (Response 500 None None)) (always not_found).

(** ** Further notions for the pipeline *)

(** A step from [w] to [w'] that talks to the same service, makes at most
    [budget] requests, and only adds to the two caches. *)
Definition advances (budget : nat) (w w' : world) : Prop :=
  same_service w w' ∧
  requests_within budget w w' ∧
  pokemon_details_cache w ⊆ pokemon_details_cache w' ∧
  species_info_cache w ⊆ species_info_cache w'.

(** The listing entries that are not on the denylist. *)
Definition not_denylisted (all_pokemon : list listing) : list listing :=
  List.filter (fun pokemon => negb (is_excluded_pokemon (l_name pokemon))) all_pokemon.




(** * Properties *)

(** *** Size bookkeeping *)

Lemma size_add_fresh (x : string) (X : gset string) :
  x ∉ X → size ({[x]} ∪ X) = S (size X).
Proof.
  intros Hx. rewrite size_union, size_singleton; [done |].
  by apply disjoint_singleton_l.
Qed.

Lemma size_remove_member (x : string) (X : gset string) :
  x ∈ X → S (size (X ∖ {[x]})) = size X.
Proof.
  intros Hx.
  rewrite (union_difference_L {[x]} X) at 2 by (by apply singleton_subseteq_l).
  rewrite size_add_fresh; [done |].
  rewrite elem_of_difference, elem_of_singleton. tauto.
Qed.

Lemma add_immunity_total s r :
  (tiers_total s ≤ tiers_total (add_immunity s r))%nat.
Proof.
  unfold tiers_total, add_immunity; simpl.
  assert (size (immunities s) ≤ size ({[tr_name r]} ∪ immunities s))%nat
    by (apply subseteq_size; set_solver).
  lia.
Qed.

Lemma add_resistance_total s r :
  (tiers_total s ≤ tiers_total (add_resistance s r))%nat.
Proof.
  unfold add_resistance.
  destruct (decide (tr_name r ∈ immunities s)); [done |].
  destruct (decide (tr_name r ∈ quarter_damage s)) as [| Hq]; [done |].
  destruct (decide (tr_name r ∈ half_damage s)) as [Hh | Hh];
    unfold tiers_total; simpl.
  - rewrite (size_add_fresh _ _ Hq).
    pose proof (size_remove_member _ _ Hh). lia.
  - rewrite (size_add_fresh _ _ Hh). lia.
Qed.

Lemma fold_left_total (f : tiers → type_ref → tiers) :
  (∀ s r, (tiers_total s ≤ tiers_total (f s r))%nat) →
  ∀ l s, (tiers_total s ≤ tiers_total (fold_left f l s))%nat.
Proof.
  intros Hf l. induction l as [| r l IH]; intros s; simpl; [done |].
  etrans; [apply (Hf s r) | apply IH].
Qed.

Lemma process_relations_total s r :
  (tiers_total s ≤ tiers_total (process_relations s r))%nat.
Proof.
  unfold process_relations.
  etrans; [| apply fold_left_total, add_resistance_total].
  apply fold_left_total, add_immunity_total.
Qed.

(** *** The outer loop on a split list *)

Lemma process_types_app l1 l2 chart s :
  process_types (l1 ++ l2) chart s =
  process_types l1 chart s ≫= process_types l2 chart.
Proof.
  revert s. induction l1 as [| t l1 IH]; intros s; simpl; [done |].
  destruct (chart !! t); [apply IH | done].
Qed.

Lemma process_types_present l chart s :
  Forall (fun t => is_Some (chart !! t)) l →
  is_Some (process_types l chart s).
Proof.
  intros Hl. revert s. induction Hl as [| t l [r Hr] _ IH]; intros s; simpl.
  - by eexists.
  - rewrite Hr. apply IH.
Qed.


(** Appending a type is one more iteration from the state reached so far. *)
Lemma process_types_snoc l t chart s r :
  chart !! t = Some r →
  process_types (l ++ [t]) chart s =
  (fun s' => process_relations s' r) <$> process_types l chart s.
Proof.
  intros Hr. rewrite process_types_app.
  destruct (process_types l chart s) as [s' |]; simpl; [| done].
  by rewrite Hr.
Qed.

(** C10: the score never decreases when one more type, present in the
    chart, is appended to a type list whose types are all present. *)
Theorem score_monotone_under_extension
    (type_chart : gmap string relations) (pokemon_types : list string) (t : string) :
  Forall (fun ty => is_Some (type_chart !! ty)) pokemon_types →
  is_Some (type_chart !! t) →
  ∃ before after : nat,
    calculate_defensive_effectiveness pokemon_types type_chart = Some before ∧
    calculate_defensive_effectiveness (pokemon_types ++ [t]) type_chart = Some after ∧
    (before ≤ after)%nat.
Proof.
  intros Hall [r Hr].
  destruct (process_types_present pokemon_types type_chart empty_tiers Hall) as [s Hs].
  exists (tiers_total s), (tiers_total (process_relations s r)).
  unfold calculate_defensive_effectiveness.
  rewrite (process_types_snoc _ _ _ _ _ Hr), Hs. simpl.
  split_and!; [done | done | apply process_relations_total].
Qed.

Lemma score_monotone_under_extension_witness :
  ∃ before after : nat,
    calculate_defensive_effectiveness ["dragon"] sample_chart = Some before ∧
    calculate_defensive_effectiveness (["dragon"] ++ ["ground"]) sample_chart = Some after ∧
    (before ≤ after)%nat.
Proof.
  apply score_monotone_under_extension.
  - repeat constructor; vm_compute; eauto.
  - vm_compute; eauto.
Defined.

(** *** Stacking of half-resistances *)
Section Stacking.
Variable x : string.


Lemma add_immunity_standing s r :
  tr_name r ≠ x →
  (x ∈ immunities (add_immunity s r) ↔ x ∈ immunities s) ∧
  (x ∈ quarter_damage (add_immunity s r) ↔ x ∈ quarter_damage s) ∧
  (x ∈ half_damage (add_immunity s r) ↔ x ∈ half_damage s).
Proof.
  intros Hne. unfold add_immunity; simpl. split_and!; [| done | done].
  rewrite elem_of_union, elem_of_singleton. intuition congruence.
Qed.

Lemma add_immunity_other n s r :
  tr_name r ≠ x → resisted_at_least x n s → resisted_at_least x n (add_immunity s r).
Proof.
  intros Hne. destruct (add_immunity_standing s r Hne) as (Hi & Hq & Hh).
  destruct n as [| [| n]]; unfold resisted_at_least, unresisted, halved, quartered;
    rewrite Hi, Hq, Hh; tauto.
Qed.

(** What one half-damage relation does to [x]'s standing. *)
Lemma add_resistance_standing s r :
  tr_name r ≠ x →
  (x ∈ immunities (add_resistance s r) ↔ x ∈ immunities s) ∧
  (x ∈ quarter_damage (add_resistance s r) ↔ x ∈ quarter_damage s) ∧
  (x ∈ half_damage (add_resistance s r) ↔ x ∈ half_damage s).
Proof.
  intros Hne. unfold add_resistance.
  repeat case_decide; simpl; split_and!; try done;
    rewrite ?elem_of_union, ?elem_of_difference, ?elem_of_singleton;
    split; intros; try tauto; intuition congruence.
Qed.

Lemma add_resistance_keeps n s r :
  resisted_at_least x n s → resisted_at_least x n (add_resistance s r).
Proof.
  destruct (decide (tr_name r = x)) as [Heq | Hne].
  - unfold add_resistance. rewrite Heq.
    destruct n as [| [| n]]; unfold resisted_at_least, unresisted, halved, quartered;
      intros H; repeat case_decide; simpl;
      rewrite ?elem_of_union, ?elem_of_difference, ?elem_of_singleton; tauto.
  - destruct (add_resistance_standing s r Hne) as (Hi & Hq & Hh).
    destruct n as [| [| n]]; unfold resisted_at_least, unresisted, halved, quartered;
      rewrite Hi, Hq, Hh; tauto.
Qed.

Lemma add_resistance_hit n s r :
  tr_name r = x → resisted_at_least x n s → resisted_at_least x (S n) (add_resistance s r).
Proof.
  intros Heq. unfold add_resistance. rewrite Heq.
  destruct n as [| [| n]]; unfold resisted_at_least, unresisted, halved, quartered;
    intros H; repeat case_decide; simpl;
    rewrite ?elem_of_union, ?elem_of_difference, ?elem_of_singleton; tauto.
Qed.

Lemma fold_immunities_other n l s :
  x ∉ names_of l → resisted_at_least x n s →
  resisted_at_least x n (fold_left add_immunity l s).
Proof.
  revert s. induction l as [| r l IH]; intros s Hx Hs; simpl; [done |].
  unfold names_of in Hx. simpl in Hx.
  rewrite elem_of_union, elem_of_singleton in Hx.
  apply IH; [unfold names_of; tauto |].
  apply add_immunity_other; [intros Heq; rewrite Heq in Hx; tauto | done].
Qed.

Lemma fold_resistances_keep n l s :
  resisted_at_least x n s → resisted_at_least x n (fold_left add_resistance l s).
Proof.
  revert s. induction l as [| r l IH]; intros s Hs; simpl; [done |].
  by apply IH, add_resistance_keeps.
Qed.

Lemma fold_resistances_hit n l s :
  x ∈ names_of l → resisted_at_least x n s →
  resisted_at_least x (S n) (fold_left add_resistance l s).
Proof.
  revert s. induction l as [| r l IH]; intros s Hx Hs; simpl.
  - unfold names_of in Hx. simpl in Hx. by apply not_elem_of_empty in Hx.
  - destruct (decide (tr_name r = x)) as [Heq | Hne].
    + by apply fold_resistances_keep, add_resistance_hit.
    + apply IH; [| by apply add_resistance_keeps].
      unfold names_of in Hx. simpl in Hx.
      rewrite elem_of_union, elem_of_singleton in Hx.
      unfold names_of. destruct Hx as [Hx | Hx]; [congruence | done].
Qed.

Lemma process_types_keep chart l : ∀ n s s',
  Forall (not_immune x chart) l →
  process_types l chart s = Some s' →
  resisted_at_least x n s → resisted_at_least x n s'.
Proof.
  induction l as [| t l IH]; intros n s s' Hl Hrun Hs; simpl in Hrun.
  - by simplify_eq.
  - inversion Hl as [| ? ? Ht Hl']; subst.
    destruct (chart !! t) as [r |] eqn:Hr; [| done].
    eapply IH; [done | done |].
    unfold process_relations.
    apply fold_resistances_keep, fold_immunities_other; [by apply Ht | done].
Qed.

Lemma process_types_hit chart l t : ∀ n s s',
  Forall (not_immune x chart) l → t ∈ l → halves x chart t →
  process_types l chart s = Some s' →
  resisted_at_least x n s → resisted_at_least x (S n) s'.
Proof.
  induction l as [| u l IH]; intros n s s' Hl Hin Hhalf Hrun Hs; simpl in Hrun.
  - by apply elem_of_nil in Hin.
  - inversion Hl as [| ? ? Hu Hl']; subst.
    destruct (chart !! u) as [r |] eqn:Hr; [| done].
    apply elem_of_cons in Hin as [<- | Hin].
    + destruct Hhalf as (r' & Hr' & Hx). simplify_eq.
      eapply process_types_keep; [done | done |].
      unfold process_relations.
      apply fold_resistances_hit; [done |].
      apply fold_immunities_other; [by apply Hu | done].
    + eapply IH; [done | done | done | done |].
      unfold process_relations.
      apply fold_resistances_keep, fold_immunities_other; [by apply Hu | done].
Qed.
End Stacking.

Lemma stacked_from_ordered_pair (x : string) chart (l : list string) (i j : nat) t1 t2 s :
  (i < j)%nat → l !! i = Some t1 → l !! j = Some t2 →
  halves x chart t1 → halves x chart t2 →
  Forall (not_immune x chart) l →
  process_types l chart empty_tiers = Some s →
  quartered x s.
Proof.
  intros Hij Hi Hj H1 H2 Hfree Hrun.
  rewrite <- (take_drop_middle l j t2 Hj) in Hrun, Hfree.
  rewrite process_types_app in Hrun.
  apply Forall_app in Hfree as [Hfree1 Hfree2].
  destruct (process_types (take j l) chart empty_tiers) as [s1 |] eqn:Hs1;
    simpl in Hrun; [| done].
  assert (resisted_at_least x 1 s1) as Hone.
  { eapply (process_types_hit x chart (take j l) t1 0); try done.
    - apply list_elem_of_lookup. exists i. by rewrite lookup_take_lt.
    - left. unfold unresisted. simpl. split_and!; apply not_elem_of_empty. }
  apply (process_types_hit x chart (t2 :: drop (S j) l) t2 1 s1 s); try done.
  apply elem_of_cons; by left.
Qed.

(** Taking a name out of a set: the size drops by one when the set holds
    it and stays otherwise. *)
Lemma size_with (x : string) (X : gset string) :
  x ∈ X → size X = S (size (X ∖ {[x]})).
Proof.
  intros Hx.
  assert (X = {[x]} ∪ X ∖ {[x]}) as HX.
  { apply set_eq. intros y.
    rewrite elem_of_union, elem_of_difference, elem_of_singleton.
    destruct (decide (y = x)) as [-> |]; tauto. }
  rewrite HX at 1. rewrite size_union, size_singleton; [done |].
  intros y. rewrite elem_of_difference, elem_of_singleton. tauto.
Qed.

Lemma size_without (x : string) (X : gset string) :
  (x ∉ X) → size (X ∖ {[x]}) = size X.
Proof.
  intros Hx. f_equal. apply set_eq. intros y.
  rewrite elem_of_difference, elem_of_singleton.
  split; [tauto |]. intros Hy. split; [done |]. by intros ->.
Qed.

(** C5: when two of the entity's types both list [x] in half_damage_from
    and none of its types is immune to [x], processing ends with [x] in the
    quarter-damage set and not in the half-damage set, so that [x] adds
    exactly 1 to the score: the score returned is one more than the number
    of the other names held by the three sets. *)
Theorem stacked_half_resistance_counts_once
    (type_chart : gmap string relations) (pokemon_types : list string)
    (x : string) (i j : nat) (t1 t2 : string) :
  Forall (fun ty => is_Some (type_chart !! ty)) pokemon_types →
  i ≠ j →
  pokemon_types !! i = Some t1 → pokemon_types !! j = Some t2 →
  halves x type_chart t1 → halves x type_chart t2 →
  Forall (not_immune x type_chart) pokemon_types →
  ∃ s, process_types pokemon_types type_chart empty_tiers = Some s ∧
       calculate_defensive_effectiveness pokemon_types type_chart = Some (tiers_total s) ∧
       x ∈ quarter_damage s ∧ (x ∉ half_damage s) ∧ (x ∉ immunities s) ∧
       contribution x s = 1%nat ∧
       calculate_defensive_effectiveness pokemon_types type_chart
       = Some (1 + (size (immunities s ∖ {[x]}) + size (quarter_damage s ∖ {[x]})
                    + size (half_damage s ∖ {[x]})))%nat.
Proof.
  intros Hall Hij Hi Hj H1 H2 Hfree.
  destruct (process_types_present pokemon_types type_chart empty_tiers Hall) as [s Hs].
  assert (quartered x s) as (Himm & Hq & Hh).
  { destruct (decide (i < j)%nat).
    - by eapply (stacked_from_ordered_pair x type_chart pokemon_types i j t1 t2).
    - eapply (stacked_from_ordered_pair x type_chart pokemon_types j i t2 t1);
        [lia | done ..]. }
  exists s. unfold calculate_defensive_effectiveness, contribution. rewrite Hs.
  split_and!; try done.
  - repeat case_decide; done.
  - simpl. f_equal. unfold tiers_total.
    rewrite (size_without x (immunities s)), (size_without x (half_damage s)),
            (size_with x (quarter_damage s)) by done.
    lia.
Qed.

Lemma stacked_half_resistance_counts_once_witness :
  ∃ s, process_types ["steel"; "fairy"] stacking_chart empty_tiers = Some s ∧
       calculate_defensive_effectiveness ["steel"; "fairy"] stacking_chart
         = Some (tiers_total s) ∧
       "dragon" ∈ quarter_damage s ∧ ("dragon" ∉ half_damage s) ∧
       ("dragon" ∉ immunities s) ∧ contribution "dragon" s = 1%nat ∧
       calculate_defensive_effectiveness ["steel"; "fairy"] stacking_chart
       = Some (1 + (size (immunities s ∖ {["dragon"]})
                    + size (quarter_damage s ∖ {["dragon"]})
                    + size (half_damage s ∖ {["dragon"]})))%nat.
Proof.
  apply (stacked_half_resistance_counts_once stacking_chart ["steel"; "fairy"]
           "dragon" 0 1 "steel" "fairy").
  - repeat constructor; vm_compute; eauto.
  - lia.
  - reflexivity.
  - reflexivity.
  - eexists. split; [vm_compute; reflexivity | by vm_compute].
  - eexists. split; [vm_compute; reflexivity | by vm_compute].
  - repeat constructor; intros r Hr; vm_compute in Hr; simplify_eq; by vm_compute.
Defined.

(** *** What the score counts *)

Lemma add_immunity_resisted s r :
  resisted (add_immunity s r) = {[tr_name r]} ∪ resisted s.
Proof.
  unfold resisted, add_immunity; simpl.
  apply set_eq. intros y. rewrite !elem_of_union. tauto.
Qed.

Lemma add_resistance_resisted s r :
  resisted (add_resistance s r) = {[tr_name r]} ∪ resisted s.
Proof.
  unfold resisted, add_resistance.
  repeat case_decide; simpl; apply set_eq; intros y;
    rewrite ?elem_of_union, ?elem_of_difference, ?elem_of_singleton;
    destruct (decide (y = tr_name r)) as [-> |]; tauto.
Qed.

Lemma add_resistance_apart s r :
  quarter_damage s ## half_damage s →
  quarter_damage (add_resistance s r) ## half_damage (add_resistance s r).
Proof.
  unfold add_resistance. intros Hapart.
  repeat case_decide; simpl; try done; intros y;
    rewrite ?elem_of_union, ?elem_of_difference, ?elem_of_singleton;
    specialize (Hapart y); intuition congruence.
Qed.

Lemma fold_left_resisted (f : tiers → type_ref → tiers) :
  (∀ s r, resisted (f s r) = {[tr_name r]} ∪ resisted s) →
  ∀ l s, resisted (fold_left f l s) = names_of l ∪ resisted s.
Proof.
  intros Hf l. unfold names_of.
  induction l as [| r l IH]; intros s; simpl.
  - by rewrite union_empty_l_L.
  - rewrite IH, Hf. apply set_eq. intros y. rewrite !elem_of_union. tauto.
Qed.

Lemma fold_resistances_apart l : ∀ s,
  quarter_damage s ## half_damage s →
  quarter_damage (fold_left add_resistance l s)
    ## half_damage (fold_left add_resistance l s).
Proof.
  induction l as [| r l IH]; intros s Hs; simpl; [done |].
  by apply IH, add_resistance_apart.
Qed.

Lemma fold_immunities_sets l : ∀ s,
  quarter_damage (fold_left add_immunity l s) = quarter_damage s ∧
  half_damage (fold_left add_immunity l s) = half_damage s.
Proof.
  induction l as [| r l IH]; intros s; simpl; [done |].
  destruct (IH (add_immunity s r)) as [-> ->]. done.
Qed.

Lemma process_types_resisted chart l : ∀ s s',
  process_types l chart s = Some s' →
  quarter_damage s ## half_damage s →
  resisted s' = resisted s ∪ resisted_names l chart ∧
  quarter_damage s' ## half_damage s'.
Proof.
  unfold resisted_names.
  induction l as [| t l IH]; intros s s' Hrun Hapart; simpl in *.
  - simplify_eq. by rewrite union_empty_r_L.
  - destruct (chart !! t) as [r |]; [| done].
    apply IH in Hrun as [-> Hapart'].
    + split; [| done]. unfold process_relations.
      rewrite (fold_left_resisted _ add_resistance_resisted),
              (fold_left_resisted _ add_immunity_resisted).
      apply set_eq. intros y. rewrite !elem_of_union. tauto.
    + unfold process_relations. apply fold_resistances_apart.
      by destruct (fold_immunities_sets (no_damage_from r) s) as [-> ->].
Qed.

Lemma size_union_intersection (X Y : gset string) :
  (size X + size Y = size (X ∪ Y) + size (X ∩ Y))%nat.
Proof.
  rewrite size_union_alt.
  assert (Y = (Y ∖ X) ∪ (X ∩ Y)) as HY.
  { apply set_eq. intros y.
    rewrite elem_of_union, elem_of_difference, elem_of_intersection.
    destruct (decide (y ∈ X)); tauto. }
  rewrite HY at 1. rewrite size_union; [lia |].
  intros y. rewrite elem_of_difference, elem_of_intersection. tauto.
Qed.

(** The score is the number of distinct attacking types resisted, plus one
    more for every type that is in the immune set and in a resistance set
    at once. *)
Lemma score_counts_overlap chart pokemon_types s :
  process_types pokemon_types chart empty_tiers = Some s →
  tiers_total s
  = (size (resisted_names pokemon_types chart) + size (counted_twice s))%nat.
Proof.
  intros Hrun.
  apply process_types_resisted in Hrun as [Hnames Hapart]; [| done].
  assert (resisted empty_tiers = ∅) as Hempty
    by (unfold resisted; simpl; by rewrite !union_empty_l_L).
  rewrite Hempty, union_empty_l_L in Hnames.
  rewrite <- Hnames. unfold tiers_total, resisted, counted_twice.
  rewrite <- (assoc_L (∪)), <- size_union_intersection.
  rewrite (size_union (quarter_damage s)); [lia | done].
Qed.

(** C1: on the dragon/ground pair the score is 7 although only 6 attacking
    types are resisted or without effect: electric, halved by dragon and
    then found to have no effect on ground, is counted in both the immune
    and the half-damage set.  In the other order the score is 6. *)
Theorem immunity_after_resistance_counted_twice :
  calculate_defensive_effectiveness ["dragon"; "ground"] sample_chart = Some 7%nat ∧
  size (resisted_names ["dragon"; "ground"] sample_chart) = 6%nat ∧
  calculate_defensive_effectiveness ["ground"; "dragon"] sample_chart = Some 6%nat ∧
  (∃ s, process_types ["dragon"; "ground"] sample_chart empty_tiers = Some s ∧
        "electric" ∈ immunities s ∧ "electric" ∈ half_damage s ∧
        counted_twice s = {["electric"]}).
Proof.
  split_and!; try by vm_compute.
  eexists. split; [vm_compute; reflexivity |]. split_and!; by vm_compute.
Qed.

(** *** Display names *)

(** C8: the four display names of the specification. *)
Theorem format_pokemon_name_examples :
  format_pokemon_name "charizard-mega-x" = "Mega Charizard X" ∧
  format_pokemon_name "raichu-alolan" = "Alolan Raichu" ∧
  format_pokemon_name "deoxys-attack" = "Deoxys (Attack)" ∧
  format_pokemon_name "porygon-z" = "Porygon-Z" ∧
  bool_decide ("porygon-z" ∈ hyphenated_species) = true.
Proof. split_and!; vm_compute; reflexivity. Qed.

(** *** Ranking *)

Lemma row_before_spec x y : row_before x y = true ↔ ranks_before x y.
Proof.
  unfold row_before, ranks_before.
  rewrite orb_true_iff, andb_true_iff, Nat.ltb_lt, Nat.eqb_eq, Z.leb_le.
  intuition congruence.
Qed.

Lemma ranks_before_total x y : row_before x y = false → ranks_before y x.
Proof.
  unfold row_before, ranks_before.
  rewrite orb_false_iff, andb_false_iff, Nat.ltb_ge, Nat.eqb_neq, Z.leb_gt. lia.
Qed.

Lemma ranks_before_trans x y z : ranks_before x y → ranks_before y z → ranks_before x z.
Proof. unfold ranks_before. lia. Qed.

Lemma insert_row_perm x l : Permutation (x :: l) (insert_row x l).
Proof.
  induction l as [| y l IH]; simpl; [done |].
  destruct (row_before x y); [done |].
  rewrite <- IH. apply perm_swap.
Qed.

Lemma insert_row_sorted x l :
  StronglySorted ranks_before l → StronglySorted ranks_before (insert_row x l).
Proof.
  induction 1 as [| y l Hl IH Hy]; simpl.
  - repeat constructor.
  - destruct (row_before x y) eqn:Hxy.
    + apply row_before_spec in Hxy.
      constructor; [by constructor |].
      constructor; [done |].
      eapply Forall_impl; [exact Hy |].
      intros z Hz. by eapply ranks_before_trans.
    + apply ranks_before_total in Hxy.
      constructor; [done |].
      rewrite <- (insert_row_perm x l). by constructor.
Qed.

Lemma insert_row_stable r x l :
  List.filter (same_rank r) (insert_row x l) = List.filter (same_rank r) (x :: l).
Proof.
  induction l as [| y l IH]; simpl; [done |].
  destruct (row_before x y) eqn:Hxy; [done |].
  simpl in *. rewrite IH.
  destruct (same_rank r x) eqn:Hx, (same_rank r y) eqn:Hy; try done.
  exfalso. unfold same_rank, row_before in *.
  apply andb_true_iff in Hx as [Hx1 Hx2], Hy as [Hy1 Hy2].
  apply Nat.eqb_eq in Hx1, Hy1. apply Z.eqb_eq in Hx2, Hy2.
  apply orb_false_iff in Hxy as [_ Hxy].
  apply andb_false_iff in Hxy as [Hxy | Hxy].
  - apply Nat.eqb_neq in Hxy. congruence.
  - apply Z.leb_gt in Hxy. lia.
Qed.

Lemma sort_values_perm rows : Permutation rows (sort_values rows).
Proof.
  induction rows as [| x rows IH]; simpl; [done |].
  rewrite <- insert_row_perm. by constructor.
Qed.

Lemma sort_values_sorted rows : StronglySorted ranks_before (sort_values rows).
Proof.
  induction rows as [| x rows IH]; simpl; [constructor |].
  by apply insert_row_sorted.
Qed.

Lemma sort_values_stable rows r :
  List.filter (same_rank r) (sort_values rows) = List.filter (same_rank r) rows.
Proof.
  induction rows as [| x rows IH]; simpl; [done |].
  rewrite insert_row_stable. simpl. by rewrite IH.
Qed.

(** C6: the rows handed to the report are the accepted rows, rearranged so
    that a higher score stands first and, among equal scores, a higher
    base-stat total; rows tied on both columns keep the order in which they
    were accepted, so the same accepted rows always give the same report.
    A run hands over no report exactly when it accepted no row, and
    otherwise the report is the accepted rows in that order. *)
Theorem sort_values_ranked (rows : list result_row) :
  Permutation rows (sort_values rows) ∧
  StronglySorted ranks_before (sort_values rows) ∧
  (∀ r, List.filter (same_rank r) (sort_values rows) = List.filter (same_rank r) rows) ∧
  (∀ include_forms min_bst type_chart all_pokemon w,
     ∃ vs a w',
       analyse_all min_bst type_chart (filter_forms include_forms all_pokemon)
                   fresh_analysis w = (vs, a, w') ∧
       snd (main include_forms min_bst type_chart all_pokemon w) = w' ∧
       (fst (main include_forms min_bst type_chart all_pokemon w) = None
        ↔ results a = []) ∧
       (results a ≠ [] →
        ∃ report,
          fst (main include_forms min_bst type_chart all_pokemon w) = Some report ∧
          Permutation (results a) report ∧
          StronglySorted ranks_before report ∧
          ∀ r, List.filter (same_rank r) report
               = List.filter (same_rank r) (results a))).
Proof.
  split_and!.
  - apply sort_values_perm.
  - apply sort_values_sorted.
  - intros r. apply sort_values_stable.
  - intros include_forms min_bst type_chart all_pokemon w. unfold main.
    destruct (analyse_all _ _ _ _ _) as [[vs a] w'].
    exists vs, a, w'. split; [done |].
    destruct (results a) as [| row rows'] eqn:Hres; simpl.
    + split_and!; done.
    + split_and!; [done | done |]. intros _.
      exists (sort_values (row :: rows')). split_and!; [done | | |].
      * apply sort_values_perm.
      * apply sort_values_sorted.
      * intros r. apply sort_values_stable.
Qed.

Lemma sort_values_ranked_witness :
  (∃ report,
     fst (main false 300 sample_chart
            [Listing "pikachu" (pokemon_url "pikachu")] pikachu_world) = Some report ∧
     StronglySorted ranks_before report) ∧
  fst (main false 321 sample_chart
         [Listing "pikachu" (pokemon_url "pikachu")] pikachu_world) = None.
Proof.
  split.
  - destruct (proj2 (proj2 (proj2 (sort_values_ranked []))) false 300 sample_chart
                [Listing "pikachu" (pokemon_url "pikachu")] pikachu_world)
      as (vs & a & w' & Hrun & _ & _ & Hreport).
    destruct Hreport as (report & Hmain & _ & Hsorted & _).
    + vm_compute in Hrun. by injection Hrun as _ <- _.
    + by exists report.
  - destruct (proj2 (proj2 (proj2 (sort_values_ranked []))) false 321 sample_chart
                [Listing "pikachu" (pokemon_url "pikachu")] pikachu_world)
      as (vs & a & w' & Hrun & _ & Hnone & _).
    apply Hnone. vm_compute in Hrun. by injection Hrun as _ <- _.
Defined.

(** *** The detail fetch *)

(** Stepping through a gateway computation. *)
Ltac run_gateway :=
  unfold try_except, mbind, M_bind, bind, mret, M_ret, ret, raise,
    requests_get_pokemon, requests_get_species, json, retry_after_seconds,
    sleep, store_details, store_species, cached_details, cached_species,
    is_fetch_error in *.

(** Case analysis on the two tests of [sleep]. *)
Ltac case_sleep d :=
  destruct ((d <? - max_sleep) || (max_sleep <? d)); [| destruct (d <? 0)].


(** What [sleep] does with a wait. *)
Lemma sleep_cases d w :
  (∃ e, sleep d w = (Raise e, w) ∧ wait_refused e d ∧
        (e = ValueError ∨ e = OverflowError)) ∨
  (0 ≤ d ≤ max_sleep ∧
   sleep d w = (Ok tt, World (pokemon_endpoint w) (species_endpoint w)
                             (requests_made w) (slept w ++ [Wait d])
                             (pokemon_details_cache w) (species_info_cache w))).
Proof.
  unfold sleep, wait_refused.
  destruct ((d <? - max_sleep) || (max_sleep <? d)) eqn:Hover.
  - left. exists OverflowError. split_and!; [done | | by right].
    left. split; [done |].
    apply orb_true_iff in Hover as [H | H]; apply Z.ltb_lt in H; lia.
  - apply orb_false_iff in Hover as [Hlo Hhi]. apply Z.ltb_ge in Hlo, Hhi.
    destruct (d <? 0) eqn:Hneg.
    + left. exists ValueError. split_and!; [done | | by left].
      right. split; [done |]. apply Z.ltb_lt in Hneg. lia.
    + right. apply Z.ltb_ge in Hneg. split; [lia | done].
Qed.

(** One attempt: what it returns, and what it leaves behind. *)
Lemma details_attempt_outcome url max_retries retry_delay attempt w r w' :
  details_attempt url max_retries retry_delay attempt w = (r, w') →
  pokemon_endpoint w' = pokemon_endpoint w ∧
  species_endpoint w' = species_endpoint w ∧
  species_info_cache w' = species_info_cache w ∧
  requests_made w' = S (requests_made w) ∧
  match r with
  | Ok (Return (Some data)) =>
      ∃ resp, pokemon_endpoint w (requests_made w) url = Answer resp ∧
        status_code resp = 200 ∧ body resp = Some data ∧
        pokemon_details_cache w' = <[url := data]> (pokemon_details_cache w)
  | Ok (Return None) => False
  | Ok (NextAttempt _) =>
      pokemon_details_cache w' = pokemon_details_cache w ∧
      ((∃ resp, pokemon_endpoint w (requests_made w) url = Answer resp ∧
                status_code resp ≠ 200)
       ∨ (S attempt < max_retries)%nat) ∧
      no_record (pokemon_endpoint w (requests_made w) url)
  | Raise (FailedAfter what attempts) =>
      what = "data" ∧ attempts = max_retries ∧ (max_retries ≤ S attempt)%nat ∧
      pokemon_details_cache w' = pokemon_details_cache w ∧
      (pokemon_endpoint w (requests_made w) url = ConnectionFailed ∨
       ∃ resp, pokemon_endpoint w (requests_made w) url = Answer resp ∧
               status_code resp = 200 ∧ body resp = None) ∧
      no_record (pokemon_endpoint w (requests_made w) url)
  | Raise (ValueError as e) | Raise (OverflowError as e) =>
      pokemon_details_cache w' = pokemon_details_cache w ∧
      no_record (pokemon_endpoint w (requests_made w) url) ∧
      pause_refused retry_delay e (pokemon_endpoint w (requests_made w) url)
  | Raise _ => False
  end.
Proof.
  unfold details_attempt.
  unfold json, retry_after_seconds, requests_get_pokemon, store_details,
    try_except, mbind, M_bind, bind, mret, M_ret, ret, raise, is_fetch_error.
  destruct (pokemon_endpoint w (requests_made w) url) as [| resp] eqn:Hresp.
  - destruct (Z.of_nat attempt <? Z.of_nat max_retries - 1) eqn:Hlast.
    + apply Z.ltb_lt in Hlast.
      destruct (sleep_cases retry_delay (tick w))
        as [(e & -> & Hwait & [-> | ->]) | (_ & ->)];
        intros [= <- <-]; simpl; split_and!; try done. right; lia.
    + apply Z.ltb_ge in Hlast. intros [= <- <-]; simpl.
      split_and!; try done; [lia | by left].
  - destruct (status_code resp =? 200) eqn:H200.
    + apply Z.eqb_eq in H200.
      destruct (body resp) as [data |] eqn:Hbody.
      * intros [= <- <-]; simpl. split_and!; try done. by exists resp.
      * destruct (Z.of_nat attempt <? Z.of_nat max_retries - 1) eqn:Hlast.
        -- apply Z.ltb_lt in Hlast.
           assert ((status_code resp =? 429) = false) as H429
             by (rewrite H200; done).
           destruct (sleep_cases retry_delay (tick w))
             as [(e & -> & Hwait & [-> | ->]) | (_ & ->)];
             intros [= <- <-]; simpl; rewrite ?H429;
             split_and!; try done; try (by right). right; lia.
        -- apply Z.ltb_ge in Hlast. intros [= <- <-]; simpl.
           split_and!; try done; [lia | right; by exists resp | by right].
    + apply Z.eqb_neq in H200.
      destruct (status_code resp =? 429) eqn:H429.
      * destruct (retry_after resp) as [[n |] |] eqn:Hheader; simpl.
        -- destruct (sleep_cases n (tick w))
             as [(e & -> & Hwait & [-> | ->]) | (_ & ->)];
             intros [= <- <-]; simpl; rewrite ?H429, ?Hheader;
             split_and!; try done; try (by left).
           left. by exists resp.
        -- intros [= <- <-]; simpl. rewrite H429, Hheader.
           split_and!; try done. by left.
        -- destruct (sleep_cases (retry_delay * 2) (tick w))
             as [(e & -> & Hwait & [-> | ->]) | (_ & ->)];
             intros [= <- <-]; simpl; rewrite ?H429, ?Hheader;
             split_and!; try done; try (by left).
           left. by exists resp.
      * destruct (sleep_cases retry_delay (tick w))
          as [(e & -> & Hwait & [-> | ->]) | (_ & ->)];
          intros [= <- <-]; simpl; rewrite ?H429;
          split_and!; try done; try (by left).
        left. by exists resp.
Qed.

(** The loop from attempt [a] on, with [n] attempts left. *)
Lemma details_attempts_outcome url max_retries retry_delay :
  ∀ n a w r w',
    (a + n)%nat = max_retries →
    details_attempts url max_retries retry_delay (seq a n) w = (r, w') →
    pokemon_endpoint w' = pokemon_endpoint w ∧
    species_endpoint w' = species_endpoint w ∧
    species_info_cache w' = species_info_cache w ∧
    attempts_outcome url max_retries retry_delay n w r w'.
Proof.
  unfold attempts_outcome.
  induction n as [| n IH]; intros a w r w' Hsum; simpl.
  - intros [= <- <-]. split_and!; try done. intros; lia.
  - unfold mbind, M_bind, bind.
    destruct (details_attempt url max_retries retry_delay a w) as [r1 w1] eqn:Hstep.
    apply details_attempt_outcome in Hstep as (Hpe & Hse & Hsc & Hreq & Hone).
    destruct r1 as [[[data |] | u] | e].
    + intros [= <- <-]. split_and!; try done.
      destruct Hone as (resp & Hresp & H200 & Hbody & Hcache).
      exists 0%nat, resp. rewrite Nat.add_0_r.
      split_and!; try done; [lia | lia | intros; lia].
    + done.
    + intros Hrest. destruct Hone as (Hcache & Hwhy & Hnone).
      apply IH in Hrest as (Hpe' & Hse' & Hsc' & Hout); [| lia].
      split_and!; try congruence.
      rewrite Hpe, Hreq in Hout.
      assert (∀ k, (∀ j, (j < k)%nat →
                      no_record (pokemon_endpoint w (S (requests_made w) + j)%nat url)) →
                   ∀ j, (j < S k)%nat →
                      no_record (pokemon_endpoint w (requests_made w + j)%nat url))
        as Hshift.
      { intros k Hk [| j] Hj; [by rewrite Nat.add_0_r |].
        rewrite <- Nat.add_succ_comm. apply Hk. lia. }
      destruct r as [[data |] | e].
      * destruct Hout as (k & resp & Hk & Hresp & H200 & Hbody & Hreq' & Hcache' & Hbefore).
        exists (S k), resp. rewrite <- Nat.add_succ_comm.
        split_and!; try done; [lia | lia | congruence | by apply Hshift].
      * destruct Hout as (Hreq' & Hcache' & Hlast & Hall).
        split_and!; [lia | congruence | | by apply Hshift].
        intros k [= <-]. destruct k as [| k].
        -- rewrite Nat.add_0_r. destruct Hwhy as [Hwhy | Hwhy]; [done | lia].
        -- destruct (Hlast k eq_refl) as (resp & Hresp & Hne).
           exists resp. by rewrite <- Nat.add_succ_comm.
      * destruct e; try done.
        -- destruct Hout as (Hcache' & k & Hk & Hreq' & Hpause & Hbefore).
           split; [congruence |]. exists (S k).
           replace (requests_made w + S k)%nat with (S (requests_made w) + k)%nat
             by lia.
           split_and!; [lia | lia | done |].
           intros j Hj. apply (Hshift (S k)); [| lia].
           intros i Hi. apply Hbefore. lia.
        -- destruct Hout as (Hcache' & k & Hk & Hreq' & Hpause & Hbefore).
           split; [congruence |]. exists (S k).
           replace (requests_made w + S k)%nat with (S (requests_made w) + k)%nat
             by lia.
           split_and!; [lia | lia | done |].
           intros j Hj. apply (Hshift (S k)); [| lia].
           intros i Hi. apply Hbefore. lia.
        -- destruct Hout as (-> & -> & Hreq' & Hcache' & (k & <- & Hfail) & Hall).
           split_and!; [done | done | lia | congruence | | by apply Hshift].
           exists (S k). rewrite <- Nat.add_succ_comm. by split.
    + intros [= <- <-]. split_and!; try done.
      destruct e; try done.
      * destruct Hone as (Hcache & Hnone & Hpause).
        split; [done |]. exists 0%nat. rewrite Nat.add_0_r.
        split_and!; [lia | lia | done |].
        intros j Hj. assert (j = 0%nat) as -> by lia. by rewrite Nat.add_0_r.
      * destruct Hone as (Hcache & Hnone & Hpause).
        split; [done |]. exists 0%nat. rewrite Nat.add_0_r.
        split_and!; [lia | lia | done |].
        intros j Hj. assert (j = 0%nat) as -> by lia. by rewrite Nat.add_0_r.
      * destruct Hone as (-> & -> & Hlast & Hcache & Hfail & Hnone).
        assert (n = 0%nat) as -> by lia.
        split_and!; [done | done | lia | done | |].
        -- exists 0%nat. rewrite Nat.add_0_r. by split.
        -- intros j Hj. assert (j = 0%nat) as -> by lia. by rewrite Nat.add_0_r.
Qed.




(** *** Rate limiting *)













(** *** The legendary check *)

(** C7, as the code has it: an exception anywhere in the determination
    makes [is_legendary_or_mythical] answer [True]; it never raises; and it
    answers [False] exactly when the entity's own species record was read
    without exception and carries neither flag and, for a special form,
    either the base form's detail fetch yielded no record or the base
    form's species record was read without exception and carries neither
    flag. *)
Theorem is_legendary_or_mythical_fails_closed
    (pokemon_name : string) (pokemon_id : Z) (w : world) :
  (∀ e w', legendary_check pokemon_name pokemon_id w = (Raise e, w') →
           is_legendary_or_mythical pokemon_name pokemon_id w = (Ok true, w')) ∧
  (∃ answer w', is_legendary_or_mythical pokemon_name pokemon_id w = (Ok answer, w')) ∧
  (∀ w', is_legendary_or_mythical pokemon_name pokemon_id w = (Ok false, w') ↔
         cleared pokemon_name pokemon_id w w').
Proof.
  unfold is_legendary_or_mythical, try_except. split_and!.
  - intros e w' Hrun. by rewrite Hrun.
  - destruct (legendary_check pokemon_name pokemon_id w) as [[answer | e] w'];
      by eexists _, _.
  - intros w'. unfold cleared, legendary_check, flagged, mbind, M_bind, bind, ret.
    destruct (get_species_info pokemon_id 3 1 w) as [[own | e] w1]; simpl.
    2: { split; [done | by intros (? & ? & ? & _)]. }
    destruct (is_legendary own || is_mythical own) eqn:Hown.
    { split; [done |]. intros (own' & w1' & [= <- <-] & Hflag & _). congruence. }
    destruct (is_special_form pokemon_name) eqn:Hform.
    + destruct (get_pokemon_details _ 3 1 w1) as [[[base |] | e] w2] eqn:Hbase.
      * destruct (get_species_info (pd_id base) 3 1 w2) as [[sp | e] w3] eqn:Hsp;
          simpl.
        -- split.
           ++ intros [= Hflag <-]. exists own, w1. split_and!; try done.
              right; right. split; [done |]. by exists base, w2, sp.
           ++ intros (own' & w1' & [= <- <-] & _ & [[? _] | [[_ Hnone] | [_ Hsome]]]).
              ** done.
              ** congruence.
              ** destruct Hsome as (b & w2' & sp' & Hb & Hs & Hflag).
                 rewrite Hbase in Hb. injection Hb as <- <-.
                 rewrite Hsp in Hs. injection Hs as <- <-. by rewrite Hflag.
        -- split; [done |].
           intros (own' & w1' & [= <- <-] & _ & [[? _] | [[_ Hnone] | [_ Hsome]]]).
           ** done.
           ** congruence.
           ** destruct Hsome as (b & w2' & sp' & Hb & Hs & Hflag).
              rewrite Hbase in Hb. injection Hb as <- <-.
              rewrite Hsp in Hs. discriminate Hs.
      * split.
        -- intros [= <-]. exists own, w1. split_and!; try done.
           right; left. done.
        -- intros (own' & w1' & [= <- <-] & _ & [[? _] | [[_ Hnone] | [_ Hsome]]]).
           ++ done.
           ++ rewrite Hbase in Hnone. by injection Hnone as <-.
           ++ destruct Hsome as (b & w2' & sp' & Hb & _). congruence.
      * split; [done |].
        intros (own' & w1' & [= <- <-] & _ & [[? _] | [[_ Hnone] | [_ Hsome]]]).
        -- done.
        -- congruence.
        -- destruct Hsome as (b & w2' & sp' & Hb & _). congruence.
    + split.
      * intros [= <-]. exists own, w1. split_and!; try done. by left.
      * intros (own' & w1' & [= <- <-] & _ & [[_ ->] | [[? _] | [? _]]]); done.
Qed.

Lemma is_legendary_or_mythical_fails_closed_witness :
  fst (is_legendary_or_mythical "pikachu" 25 offline_world) = Ok true.
Proof.
  eassert (legendary_check "pikachu" 25 offline_world = (Raise _, _)) as Hrun
    by (vm_compute; reflexivity).
  rewrite (proj1 (is_legendary_or_mythical_fails_closed "pikachu" 25 offline_world)
             _ _ Hrun).
  reflexivity.
Defined.

(** The claim of C7 fails as stated: for the special form "mr-mime" the
    base form's detail fetch yields [None], and the answer is [False]
    although no species record of a base form was consulted. *)
Lemma is_legendary_or_mythical_without_base_record :
  ¬ (∀ pokemon_name pokemon_id w w',
       is_legendary_or_mythical pokemon_name pokemon_id w = (Ok false, w') →
       ∃ own w1,
         get_species_info pokemon_id 3 1 w = (Ok own, w1) ∧ flagged own = false ∧
         (is_special_form pokemon_name = true →
          ∃ base w2 base_species w3,
            get_pokemon_details (pokemon_url (get_base_form_name pokemon_name)) 3 1 w1
              = (Ok (Some base), w2) ∧
            get_species_info (pd_id base) 3 1 w2 = (Ok base_species, w3) ∧
            flagged base_species = false)).
Proof.
  intros Hclaim.
  destruct (Hclaim "mr-mime" 122 missing_entity_world
              (snd (is_legendary_or_mythical "mr-mime" 122 missing_entity_world)))
    as (own & w1 & Hown & _ & Hbase).
  { vm_compute. reflexivity. }
  vm_compute in Hown. injection Hown as <- <-.
  destruct (Hbase eq_refl) as (base & w2 & sp & w3 & Hfetch & _).
  vm_compute in Hfetch. discriminate Hfetch.
Qed.

(** *** The loop body *)

(** The base-form comparison never raises. *)
Lemma same_as_base_total base_name pokemon_signature w :
  ∃ skip w', same_as_base base_name pokemon_signature w = (Ok skip, w').
Proof.
  unfold same_as_base, try_except, mbind, M_bind, bind, ret, raise.
  destruct (get_pokemon_details _ 3 1 w) as [[[base |] | e] w']; by eexists _, _.
Qed.

(** What the signature stage can hand on. *)
Lemma screen_signature_cases seen data dex total w r w' :
  screen_signature seen data dex total w = (r, w') →
  r = Ok (Skip SameAsBase) ∨ r = Ok (Skip Duplicate) ∨
  (r = Ok (Keep (Candidate data dex total (get_pokemon_signature data)
                           (get_base_form_name (pd_name data)))) ∧
   seen !! (get_base_form_name (pd_name data), get_pokemon_signature data) = None).
Proof.
  unfold screen_signature, mbind, M_bind, bind.
  set (first_stage := if bool_decide _ then _ else _).
  assert (∃ skip w1, first_stage w = (Ok skip, w1)) as (skip & w1 & ->).
  { subst first_stage. case_bool_decide; [apply same_as_base_total |].
    by eexists _, _. }
  destruct skip; [intros [= <- <-]; by left |].
  destruct (seen !! _) eqn:Hseen; intros [= <- <-]; [right; by left |].
  right; right. done.
Qed.

Lemma screen_threshold_cases min_bst seen data dex w r w' :
  screen_threshold min_bst seen data dex w = (r, w') →
  (r = Ok (Skip BelowThreshold) ∧ w' = w ∧ stats_total data < min_bst) ∨
  (min_bst ≤ stats_total data ∧
   screen_signature seen data dex (stats_total data) w = (r, w')).
Proof.
  unfold screen_threshold.
  destruct (stats_total data <? min_bst) eqn:Hlt.
  - apply Z.ltb_lt in Hlt. intros [= <- <-]. by left.
  - apply Z.ltb_ge in Hlt. intros Hrun. by right.
Qed.

(** A candidate comes with a key not yet recorded, built from its record. *)
Lemma screen_keep min_bst seen pokemon w c w' :
  screen min_bst seen pokemon w = (Ok (Keep c), w') →
  seen !! (c_base_name c, c_signature c) = None ∧
  c_base_name c = get_base_form_name (pd_name (c_data c)) ∧
  c_signature c = get_pokemon_signature (c_data c) ∧
  c_total c = stats_total (c_data c).
Proof.
  unfold screen, mbind, M_bind, bind, ret.
  destruct (is_excluded_pokemon _); [done |].
  destruct (get_pokemon_details _ 3 1 w) as [[[data |] | e] w1]; [| done | done].
  destruct (get_national_dex_number _ _ w1) as [[dex | e] w2]; [| done].
  destruct (is_legendary_or_mythical _ _ w2) as [[[] | e] w3]; [done | | done].
  intros Hrun.
  apply screen_threshold_cases in Hrun as [(? & _) | (_ & Hrun)]; [done |].
  apply screen_signature_cases in Hrun as [? | [? | [[= ->] Hseen]]]; done.
Qed.

(** One iteration: a row is appended exactly when the verdict is
    [Included], under a key that was not recorded before and is recorded
    after; recorded keys are never forgotten. *)
Lemma analyse_step min_bst type_chart pokemon a w v a' w' :
  analyse min_bst type_chart pokemon a w = (v, a', w') →
  dom (processed_signatures a) ⊆ dom (processed_signatures a') ∧
  match v with
  | Included key row =>
      processed_signatures a !! key = None ∧
      key ∈ dom (processed_signatures a') ∧
      results a' = (results a ++ [row])%list ∧
      ∃ data, key = (get_base_form_name (pd_name data), get_pokemon_signature data) ∧
              row_name row = format_pokemon_name (pd_name data) ∧
              base_stats_total row = stats_total data
  | _ => results a' = results a
  end.
Proof.
  unfold analyse.
  destruct (screen min_bst (processed_signatures a) pokemon w)
    as [[[why | c] | e] w1] eqn:Hscreen.
  - intros [= <- <- <-]. split; [done |].
    unfold screen, mbind, M_bind, bind, ret in Hscreen.
    destruct (is_excluded_pokemon _); [by simplify_eq |].
    destruct (get_pokemon_details _ 3 1 w) as [[[data |] | e] w2];
      [| by simplify_eq | done].
    destruct (get_national_dex_number _ _ w2) as [[dex | e] w3]; [| done].
    destruct (is_legendary_or_mythical _ _ w3) as [[[] | e] w4];
      [by simplify_eq | | done].
    apply screen_threshold_cases in Hscreen as [(? & _) | (_ & Hscreen)];
      [by simplify_eq |].
    apply screen_signature_cases in Hscreen as [? | [? | [? _]]]; by simplify_eq.
  - apply screen_keep in Hscreen as (Hfresh & Hbase & Hsig & Htotal).
    unfold accept.
    destruct (calculate_defensive_effectiveness _ type_chart) as [score |].
    + intros [= <- <- <-]. simpl. rewrite dom_insert_L. split; [set_solver |].
      split_and!; [done | set_solver | done |].
      exists (c_data c). by rewrite Hbase, Hsig, Htotal.
    + intros [= <- <- <-]. simpl. rewrite dom_insert_L. split; [set_solver | done].
  - intros [= <- <- <-]. done.
Qed.

(** The whole loop, from any state of the three variables. *)
Lemma analyse_all_keys min_bst type_chart :
  ∀ all_pokemon a w vs a' w',
    analyse_all min_bst type_chart all_pokemon a w = (vs, a', w') →
    dom (processed_signatures a) ⊆ dom (processed_signatures a') ∧
    NoDup (included_keys vs) ∧
    (∀ key, key ∈ included_keys vs →
       (key ∉ dom (processed_signatures a)) ∧ key ∈ dom (processed_signatures a')) ∧
    results a' = (results a ++ included_rows vs)%list ∧
    Forall keyed_by_record vs.
Proof.
  induction all_pokemon as [| pokemon rest IH]; intros a w vs a' w'; simpl.
  - intros [= <- <- <-]. unfold included_keys, included_rows. simpl.
    rewrite app_nil_r. split_and!; try done; [constructor |].
    intros key Hkey. by apply elem_of_nil in Hkey.
  - destruct (analyse min_bst type_chart pokemon a w) as [[v a1] w1] eqn:Hstep.
    destruct (analyse_all min_bst type_chart rest a1 w1) as [[vs1 a2] w2] eqn:Hrest.
    intros [= <- <- <-].
    apply analyse_step in Hstep as [Hgrow Hv].
    apply IH in Hrest as (Hgrow' & Hnodup & Hkeys & Hrows & Hkeyed).
    unfold included_keys, included_rows in *.
    assert (∀ key, key ∈ map fst (included vs1) →
              (key ∉ dom (processed_signatures a)) ∧ key ∈ dom (processed_signatures a2))
      as Hlater.
    { intros key Hkey. destruct (Hkeys key Hkey) as [Hnew Hrec].
      split; [| done]. intros Hold. by apply Hnew, Hgrow. }
    destruct v as [| | | | | | key row | e]; simpl;
      try (split_and!; [by etrans | done | done | congruence | by constructor]).
    destruct Hv as (Hfresh & Hin & Hres & Hdata).
    split_and!.
    + by etrans.
    + constructor; [| done]. intros Hdup. by destruct (Hkeys key Hdup).
    + intros key' [-> | Hkey]%elem_of_cons.
      * split; [by apply not_elem_of_dom | by apply Hgrow'].
      * by apply Hlater.
    + rewrite Hrows, Hres, <- app_assoc. done.
    + by constructor.
Qed.

(** C2: a run emits at most one row per (base-form name, signature) key,
    and an alternate form whose signature equals that of its fetched base
    form is skipped without a row. *)
Theorem one_row_per_signature_key :
  (∀ min_bst type_chart all_pokemon w,
     let '(vs, a, _) := analyse_all min_bst type_chart all_pokemon fresh_analysis w in
     results a = map snd (included vs) ∧
     NoDup (map fst (included vs)) ∧
     Forall keyed_by_record vs) ∧
  (∀ min_bst type_chart pokemon a w data dex base w1 w2 w3 w4,
     is_excluded_pokemon (l_name pokemon) = false →
     get_pokemon_details (l_url pokemon) 3 1 w = (Ok (Some data), w1) →
     get_national_dex_number (pd_name data) (pd_id data) w1 = (Ok dex, w2) →
     is_legendary_or_mythical (pd_name data) (pd_id data) w2 = (Ok false, w3) →
     min_bst ≤ stats_total data →
     get_base_form_name (pd_name data) ≠ pd_name data →
     get_pokemon_details (pokemon_url (get_base_form_name (pd_name data))) 3 1 w3
       = (Ok (Some base), w4) →
     get_pokemon_signature base = get_pokemon_signature data →
     analyse min_bst type_chart pokemon a w = (SameAsBase, a, w4)).
Proof.
  split.
  - intros min_bst type_chart all_pokemon w.
    destruct (analyse_all min_bst type_chart all_pokemon fresh_analysis w)
      as [[vs a] w'] eqn:Hrun.
    apply analyse_all_keys in Hrun as (_ & Hnodup & _ & Hrows & Hkeyed).
    done.
  - intros min_bst type_chart pokemon a w data dex base w1 w2 w3 w4
      Hlisted Hfetch Hdex Hleg Hbst Hform Hbase Hsame.
    unfold analyse, screen, mbind, M_bind, bind.
    rewrite Hlisted, Hfetch, Hdex, Hleg.
    unfold screen_threshold. rewrite (proj2 (Z.ltb_ge _ _) Hbst).
    unfold screen_signature, mbind, M_bind, bind.
    rewrite (bool_decide_eq_true_2 _ Hform).
    unfold same_as_base, try_except, mbind, M_bind, bind, ret.
    rewrite Hbase. by rewrite (bool_decide_eq_true_2 _ Hsame).
Qed.

Lemma one_row_per_signature_key_witness :
  fst (analyse 300 sample_chart
         (Listing "pikachu-original-cap" (pokemon_url "pikachu-original-cap"))
         fresh_analysis cap_world)
  = (SameAsBase, fresh_analysis).
Proof.
  eassert (analyse 300 sample_chart
             (Listing "pikachu-original-cap" (pokemon_url "pikachu-original-cap"))
             fresh_analysis cap_world = (SameAsBase, fresh_analysis, _)) as Hrun.
  { eapply (proj2 one_row_per_signature_key).
    - reflexivity.
    - vm_compute; reflexivity.
    - vm_compute; reflexivity.
    - vm_compute; reflexivity.
    - by vm_compute.
    - by vm_compute.
    - vm_compute; reflexivity.
    - reflexivity. }
  by rewrite Hrun.
Defined.

(** The total the loop computes is the sum of the declared stat values. *)
Lemma stats_total_sum data :
  stats_total data = foldr Z.add 0 (map base_stat (pd_stats data)).
Proof.
  unfold stats_total.
  assert (∀ l acc, fold_left Z.add l acc = acc + foldr Z.add 0 l) as Hfold.
  { induction l as [| v l IH]; intros acc; simpl; [lia |]. rewrite IH. lia. }
  by rewrite Hfold.
Qed.

(** C9: an entity that reaches the threshold step is skipped there exactly
    when its base-stat total, the sum of all its declared stat values, is
    below the minimum; with a total equal to the minimum it goes on to the
    later steps. *)
Theorem threshold_is_strict
    (min_bst : Z) (type_chart : gmap string relations) (pokemon : listing)
    (a : analysis) (w : world) (data : pokemon_data) (dex : Z) (w1 w2 w3 : world) :
  is_excluded_pokemon (l_name pokemon) = false →
  get_pokemon_details (l_url pokemon) 3 1 w = (Ok (Some data), w1) →
  get_national_dex_number (pd_name data) (pd_id data) w1 = (Ok dex, w2) →
  is_legendary_or_mythical (pd_name data) (pd_id data) w2 = (Ok false, w3) →
  stats_total data = foldr Z.add 0 (map base_stat (pd_stats data)) ∧
  (fst (fst (analyse min_bst type_chart pokemon a w)) = BelowThreshold
   ↔ foldr Z.add 0 (map base_stat (pd_stats data)) < min_bst) ∧
  (foldr Z.add 0 (map base_stat (pd_stats data)) < min_bst →
   analyse min_bst type_chart pokemon a w = (BelowThreshold, a, w3)) ∧
  (foldr Z.add 0 (map base_stat (pd_stats data)) = min_bst →
   fst (fst (analyse min_bst type_chart pokemon a w)) ≠ BelowThreshold).
Proof.
  intros Hlisted Hfetch Hdex Hleg.
  split; [apply stats_total_sum |]. rewrite <- stats_total_sum.
  assert (stats_total data < min_bst →
          analyse min_bst type_chart pokemon a w = (BelowThreshold, a, w3)) as Hbelow.
  { intros Hlt. unfold analyse, screen, mbind, M_bind, bind.
    rewrite Hlisted, Hfetch, Hdex, Hleg.
    unfold screen_threshold. by rewrite (proj2 (Z.ltb_lt _ _) Hlt). }
  assert (min_bst ≤ stats_total data →
          fst (fst (analyse min_bst type_chart pokemon a w)) ≠ BelowThreshold) as Hpass.
  { intros Hge. unfold analyse, screen, mbind, M_bind, bind.
    rewrite Hlisted, Hfetch, Hdex, Hleg.
    unfold screen_threshold. rewrite (proj2 (Z.ltb_ge _ _) Hge).
    destruct (screen_signature _ data dex (stats_total data) w3) as [r w4] eqn:Hsig.
    apply screen_signature_cases in Hsig as [-> | [-> | [-> _]]]; simpl; try done.
    unfold accept. by destruct (calculate_defensive_effectiveness _ _). }
  split_and!.
  - split.
    + intros Hv. destruct (decide (stats_total data < min_bst)); [done |].
      exfalso. apply Hpass; [lia | done].
    + intros Hlt. by rewrite Hbelow.
  - done.
  - intros Heq. apply Hpass. lia.
Qed.

Lemma threshold_is_strict_witness :
  fst (fst (analyse 320 sample_chart (Listing "pikachu" (pokemon_url "pikachu"))
              fresh_analysis pikachu_world)) ≠ BelowThreshold ∧
  fst (fst (analyse 321 sample_chart (Listing "pikachu" (pokemon_url "pikachu"))
              fresh_analysis pikachu_world)) = BelowThreshold.
Proof.
  split.
  - eapply (threshold_is_strict 320 sample_chart
              (Listing "pikachu" (pokemon_url "pikachu")) fresh_analysis pikachu_world).
    + reflexivity.
    + vm_compute; reflexivity.
    + vm_compute; reflexivity.
    + vm_compute; reflexivity.
    + reflexivity.
  - eapply (threshold_is_strict 321 sample_chart
              (Listing "pikachu" (pokemon_url "pikachu")) fresh_analysis pikachu_world).
    + reflexivity.
    + vm_compute; reflexivity.
    + vm_compute; reflexivity.
    + vm_compute; reflexivity.
    + reflexivity.
Defined.

(** * Further properties *)

(** ** The score *)

(** X1: a type list whose types all resist nothing, the empty list among
    them, scores 0. *)
Theorem score_without_resistances
    (type_chart : gmap string relations) (pokemon_types : list string) :
  Forall (resists_nothing type_chart) pokemon_types →
  calculate_defensive_effectiveness pokemon_types type_chart = Some 0%nat.
Proof.
  unfold calculate_defensive_effectiveness.
  assert (∀ s, Forall (resists_nothing type_chart) pokemon_types →
               process_types pokemon_types type_chart s = Some s) as Hsame.
  { intros s Hall. revert s.
    induction Hall as [| t l (r & Hr & Hno & Hhalf) _ IH]; intros s; simpl; [done |].
    rewrite Hr. unfold process_relations. rewrite Hno, Hhalf. simpl. apply IH. }
  intros Hall. by rewrite Hsame.
Qed.

Lemma score_without_resistances_witness :
  calculate_defensive_effectiveness ["normal"; "ice"] plain_chart = Some 0%nat.
Proof.
  apply score_without_resistances.
  repeat constructor; eexists; (split; [by vm_compute | by split]).
Defined.

(** X2: the score is undefined (the [KeyError] of the chart lookup)
    exactly when some type of the list is missing from the chart. *)
Theorem score_undefined_iff_missing_type
    (type_chart : gmap string relations) (pokemon_types : list string) :
  calculate_defensive_effectiveness pokemon_types type_chart = None
  ↔ ∃ t, t ∈ pokemon_types ∧ type_chart !! t = None.
Proof.
  unfold calculate_defensive_effectiveness.
  rewrite fmap_None. generalize empty_tiers.
  induction pokemon_types as [| t l IH]; intros s; simpl.
  - split; [done |]. intros (t & Ht & _). by apply elem_of_nil in Ht.
  - destruct (type_chart !! t) as [r |] eqn:Hr.
    + rewrite IH. split.
      * intros (u & Hu & Hnone). exists u. split; [by right | done].
      * intros (u & Hu & Hnone). exists u. split; [| done].
        apply elem_of_cons in Hu as [-> | Hu]; [congruence | done].
    + split; [| done]. intros _. exists t. split; [by left | done].
Qed.

(** The immune set collects every [no_damage_from] name, whatever was
    resisted before; the two resistance sets stay apart and hold only
    [half_damage_from] names. *)
Lemma fold_immunities_immune l : ∀ s,
  immunities (fold_left add_immunity l s) = immunities s ∪ names_of l.
Proof.
  unfold names_of. induction l as [| r l IH]; intros s; simpl.
  - by rewrite union_empty_r_L.
  - rewrite IH. simpl. apply set_eq. intros y. rewrite !elem_of_union. tauto.
Qed.

Lemma add_resistance_sets s r :
  immunities (add_resistance s r) = immunities s ∧
  quarter_damage (add_resistance s r) ∪ half_damage (add_resistance s r)
    ⊆ (quarter_damage s ∪ half_damage s) ∪ {[tr_name r]}.
Proof.
  unfold add_resistance.
  repeat case_decide; simpl; (split; [done |]); intros y;
    rewrite ?elem_of_union, ?elem_of_difference, ?elem_of_singleton; tauto.
Qed.

Lemma fold_resistances_sets l : ∀ s,
  immunities (fold_left add_resistance l s) = immunities s ∧
  quarter_damage (fold_left add_resistance l s)
    ∪ half_damage (fold_left add_resistance l s)
    ⊆ (quarter_damage s ∪ half_damage s) ∪ names_of l.
Proof.
  unfold names_of. induction l as [| r l IH]; intros s; simpl.
  - split; [done |]. intros y. rewrite !elem_of_union. tauto.
  - destruct (IH (add_resistance s r)) as [-> Hsub].
    destruct (add_resistance_sets s r) as [-> Hstep].
    split; [done |]. intros y Hy. apply Hsub in Hy.
    rewrite elem_of_union in Hy. destruct Hy as [Hy | Hy].
    + apply Hstep in Hy. revert Hy. rewrite !elem_of_union. tauto.
    + rewrite !elem_of_union. tauto.
Qed.

Lemma process_types_sets chart l : ∀ s s',
  process_types l chart s = Some s' →
  immunities s' = immunities s ∪ immune_names l chart ∧
  quarter_damage s' ∪ half_damage s'
    ⊆ (quarter_damage s ∪ half_damage s) ∪ halved_names l chart.
Proof.
  unfold immune_names, halved_names.
  induction l as [| t l IH]; intros s s' Hrun; simpl in *.
  - simplify_eq. rewrite union_empty_r_L. split; [done |].
    intros y. rewrite !elem_of_union. tauto.
  - destruct (chart !! t) as [r |]; [| done].
    apply IH in Hrun as [-> Hsub]. unfold process_relations in *.
    destruct (fold_resistances_sets (half_damage_from r)
                (fold_left add_immunity (no_damage_from r) s)) as [Himm Hres].
    rewrite Himm, fold_immunities_immune. split.
    + apply set_eq. intros y. rewrite !elem_of_union. tauto.
    + intros y Hy. apply Hsub in Hy. rewrite elem_of_union in Hy.
      destruct Hy as [Hy | Hy].
      * apply Hres in Hy.
        destruct (fold_immunities_sets (no_damage_from r) s) as [Hq Hh].
        rewrite Hq, Hh in Hy. revert Hy. rewrite !elem_of_union. tauto.
      * rewrite !elem_of_union. tauto.
Qed.

Lemma tiers_from_empty chart l s :
  process_types l chart empty_tiers = Some s →
  immunities s = immune_names l chart ∧
  quarter_damage s ∪ half_damage s ⊆ halved_names l chart.
Proof.
  intros Hrun.
  destruct (process_types_sets _ _ _ _ Hrun) as [Himm Hsub].
  simpl in Himm, Hsub. rewrite union_empty_l_L in Himm.
  split; [done |].
  intros y Hy. apply Hsub in Hy. revert Hy.
  rewrite !elem_of_union. intros [[Hy | Hy] | Hy]; [| | done];
    by apply not_elem_of_empty in Hy.
Qed.

(** X3: after the loop the immune set is exactly the set of names some
    type lists in no_damage_from, the quarter and half sets are disjoint,
    and they hold only names some type lists in half_damage_from. *)
Theorem tiers_after_processing
    (type_chart : gmap string relations) (pokemon_types : list string) (s : tiers) :
  process_types pokemon_types type_chart empty_tiers = Some s →
  immunities s = immune_names pokemon_types type_chart ∧
  quarter_damage s ## half_damage s ∧
  quarter_damage s ∪ half_damage s ⊆ halved_names pokemon_types type_chart.
Proof.
  intros Hrun.
  destruct (tiers_from_empty _ _ _ Hrun) as [Himm Hsub].
  destruct (process_types_resisted _ _ _ _ Hrun) as [_ Hapart]; [done |].
  by split_and!.
Qed.

Lemma tiers_after_processing_witness :
  ∃ s, process_types ["dragon"; "ground"] sample_chart empty_tiers = Some s ∧
       immunities s = immune_names ["dragon"; "ground"] sample_chart ∧
       quarter_damage s ## half_damage s.
Proof.
  eexists. split; [vm_compute; reflexivity |].
  destruct (tiers_after_processing sample_chart ["dragon"; "ground"] _
              ltac:(vm_compute; reflexivity)) as (Himm & Hapart & _).
  split; [exact Himm | exact Hapart].
Defined.

Lemma score_without_overlap chart l :
  Forall (fun ty => is_Some (chart !! ty)) l →
  immune_names l chart ## halved_names l chart →
  ∃ s, process_types l chart empty_tiers = Some s ∧
       tiers_total s = size (resisted_names l chart).
Proof.
  intros Hall Hapart.
  destruct (process_types_present l chart empty_tiers Hall) as [s Hs].
  exists s. split; [done |].
  rewrite (score_counts_overlap _ _ _ Hs).
  destruct (tiers_from_empty _ _ _ Hs) as [Himm Hsub].
  assert (counted_twice s = ∅) as ->.
  { apply set_eq. intros y. unfold counted_twice.
    rewrite elem_of_intersection, Himm. split.
    - intros [Hy1 Hy2]. apply Hsub in Hy2. by destruct (Hapart y).
    - intros Hy. by apply not_elem_of_empty in Hy. }
  rewrite size_empty. lia.
Qed.

(** X4: when no attacking type is listed both in a no_damage_from and in a
    half_damage_from list of the entity's types, the score is the number of
    distinct attacking types in those lists. *)
Theorem score_exact_without_overlap
    (type_chart : gmap string relations) (pokemon_types : list string) :
  Forall (fun ty => is_Some (type_chart !! ty)) pokemon_types →
  immune_names pokemon_types type_chart ## halved_names pokemon_types type_chart →
  calculate_defensive_effectiveness pokemon_types type_chart
  = Some (size (resisted_names pokemon_types type_chart)).
Proof.
  intros Hall Hapart.
  destruct (score_without_overlap _ _ Hall Hapart) as (s & Hs & Htotal).
  unfold calculate_defensive_effectiveness. rewrite Hs. simpl.
  by rewrite Htotal.
Qed.

Lemma score_exact_without_overlap_witness :
  calculate_defensive_effectiveness ["steel"; "fire"] sample_chart
  = Some (size (resisted_names ["steel"; "fire"] sample_chart)).
Proof.
  apply score_exact_without_overlap.
  - repeat constructor; vm_compute; eauto.
  - apply (bool_decide_unpack _). by vm_compute.
Defined.

Lemma elem_of_names_union (f : relations → gset string)
    (chart : gmap string relations) (l : list string) y :
  y ∈ ⋃ (map (fun t => match chart !! t with Some r => f r | None => ∅ end) l)
  ↔ ∃ t r, t ∈ l ∧ chart !! t = Some r ∧ y ∈ f r.
Proof.
  rewrite elem_of_union_list. split.
  - intros (X & HX & Hy). apply list_elem_of_In, in_map_iff in HX as (t & <- & Ht).
    apply list_elem_of_In in Ht.
    destruct (chart !! t) as [r |] eqn:Hr; [by exists t, r |].
    by apply not_elem_of_empty in Hy.
  - intros (t & r & Ht & Hr & Hy). exists (f r). split; [| done].
    apply list_elem_of_In, in_map_iff. exists t. rewrite Hr.
    split; [done | by apply list_elem_of_In].
Qed.

Lemma names_union_perm (f : relations → gset string)
    (chart : gmap string relations) (l l' : list string) :
  Permutation l l' →
  ⋃ (map (fun t => match chart !! t with Some r => f r | None => ∅ end) l)
  = ⋃ (map (fun t => match chart !! t with Some r => f r | None => ∅ end) l').
Proof.
  intros Hperm. apply set_eq. intros y. rewrite !elem_of_names_union.
  split; intros (t & r & Ht & Hrest); exists t, r; split; try done.
  - by rewrite <- Hperm.
  - by rewrite Hperm.
Qed.

(** X5: under the same condition the score does not depend on the order of
    the entity's types. *)
Theorem score_order_independent_without_overlap
    (type_chart : gmap string relations) (pokemon_types reordered : list string) :
  Permutation pokemon_types reordered →
  Forall (fun ty => is_Some (type_chart !! ty)) pokemon_types →
  immune_names pokemon_types type_chart ## halved_names pokemon_types type_chart →
  calculate_defensive_effectiveness reordered type_chart
  = calculate_defensive_effectiveness pokemon_types type_chart.
Proof.
  intros Hperm Hall Hapart.
  destruct (score_without_overlap _ _ Hall Hapart) as (s & Hs & Htotal).
  destruct (score_without_overlap type_chart reordered) as (s' & Hs' & Htotal').
  - by rewrite <- Hperm.
  - unfold immune_names, halved_names in *.
    by rewrite <- (names_union_perm (fun r => names_of (no_damage_from r))
                     type_chart pokemon_types reordered Hperm),
               <- (names_union_perm (fun r => names_of (half_damage_from r))
                     type_chart pokemon_types reordered Hperm).
  - unfold calculate_defensive_effectiveness. rewrite Hs, Hs'. simpl.
    rewrite Htotal, Htotal'. unfold resisted_names.
    by rewrite (names_union_perm
                  (fun r => names_of (no_damage_from r) ∪ names_of (half_damage_from r))
                  type_chart pokemon_types reordered Hperm).
Qed.

Lemma score_order_independent_without_overlap_witness :
  calculate_defensive_effectiveness ["fire"; "steel"] sample_chart
  = calculate_defensive_effectiveness ["steel"; "fire"] sample_chart.
Proof.
  apply score_order_independent_without_overlap.
  - apply perm_swap.
  - repeat constructor; vm_compute; eauto.
  - apply (bool_decide_unpack _). by vm_compute.
Defined.


(** ** Names *)

Lemma contains_hyphen_cons c s :
  contains "-" (String c s) = if Ascii.eqb c "-" then true else contains "-" s.
Proof.
  change (contains "-" (String c s))
    with (if String.prefix "-" (String c s) then true else contains "-" s).
  change (String.prefix "-" (String c s))
    with (match ascii_dec "-"%char c with
          | left _ => String.prefix "" s
          | right _ => false
          end).
  destruct (ascii_dec "-"%char c) as [<- | Hne].
  - assert (String.prefix "" s = true) as -> by (by destruct s). done.
  - by destruct (Ascii.eqb_spec c "-") as [-> | _].
Qed.

Lemma split_nonempty s : split "-" s ≠ [].
Proof.
  destruct s as [| c s]; simpl; [done |].
  destruct (Ascii.eqb c "-"); [done |]. by destruct (split "-" s).
Qed.

(** No part of a split name holds a hyphen. *)
Lemma split_parts_hyphen_free s :
  Forall (fun part => contains "-" part = false) (split "-" s).
Proof.
  induction s as [| c s IH]; simpl; [by repeat constructor |].
  destruct (Ascii.eqb c "-") eqn:Hc; [by constructor |].
  destruct (split "-" s) as [| part parts].
  { constructor; [by rewrite contains_hyphen_cons, Hc | constructor]. }
  inversion IH as [| ? ? Hpart Hparts]; subst.
  constructor; [| done]. by rewrite contains_hyphen_cons, Hc.
Qed.

Lemma split_hyphen_free s : contains "-" s = false → split "-" s = [s].
Proof.
  induction s as [| c s IH]; [done |].
  rewrite contains_hyphen_cons. simpl.
  destruct (Ascii.eqb c "-"); [done |]. intros Hs. by rewrite (IH Hs).
Qed.

Lemma split_hyphenated s : contains "-" s = true → (1 < length (split "-" s))%nat.
Proof.
  induction s as [| c s IH]; [done |].
  rewrite contains_hyphen_cons. simpl.
  destruct (Ascii.eqb c "-").
  - intros _. simpl. pose proof (split_nonempty s).
    destruct (split "-" s); [done | simpl; lia].
  - intros Hs. specialize (IH Hs).
    destruct (split "-" s) as [| part parts]; simpl in *; lia.
Qed.

(** X6: the base-form name never holds a hyphen, and it is the name itself
    exactly when the name holds none; so every special form has a base
    name different from its own. *)
Theorem base_form_name_hyphen_free (pokemon_name : string) :
  contains "-" (get_base_form_name pokemon_name) = false ∧
  (get_base_form_name pokemon_name = pokemon_name
   ↔ contains "-" pokemon_name = false) ∧
  (is_special_form pokemon_name = true →
   get_base_form_name pokemon_name ≠ pokemon_name).
Proof.
  assert (contains "-" (get_base_form_name pokemon_name) = false) as Hfree.
  { unfold get_base_form_name.
    pose proof (split_parts_hyphen_free pokemon_name) as Hparts.
    destruct (split "-" pokemon_name) as [| p0 [| p1 parts]] eqn:Hsplit; simpl.
    - by destruct (split_nonempty pokemon_name).
    - inversion Hparts; subst. rewrite andb_false_r. done.
    - inversion Hparts as [| ? ? H0 Hrest]; subst.
      inversion Hrest; subst.
      by destruct (bool_decide (lower p0 ∈ form_indicators)). }
  assert (get_base_form_name pokemon_name = pokemon_name
          ↔ contains "-" pokemon_name = false) as Hself.
  { split.
    - intros Heq. by rewrite Heq in Hfree.
    - intros Hname. unfold get_base_form_name.
      rewrite (split_hyphen_free _ Hname). simpl. by rewrite andb_false_r. }
  split_and!; [done | done |].
  unfold is_special_form. intros Hspecial Heq. apply Hself in Heq.
  by rewrite Heq in Hspecial.
Qed.

Lemma split_after_base b f :
  contains "-" b = false →
  split "-" (b ++ "-" ++ f) = b :: split "-" f.
Proof.
  induction b as [| c b IH]; [done |].
  rewrite contains_hyphen_cons.
  destruct (Ascii.eqb c "-") eqn:Hc; [done |]. intros Hb.
  change (String c b ++ "-" ++ f) with (String c (b ++ "-" ++ f)).
  cbn [split]. by rewrite Hc, (IH Hb).
Qed.

Lemma join_cons_char c part parts :
  join "-" (String c part :: parts) = String c (join "-" (part :: parts)).
Proof. by destruct parts. Qed.

(** Joining the parts of a split name gives the name back. *)
Lemma join_split s : join "-" (split "-" s) = s.
Proof.
  induction s as [| c s IH]; [done |]. cbn [split].
  destruct (Ascii.eqb_spec c "-") as [-> | Hc].
  - pose proof (split_nonempty s).
    destruct (split "-" s) as [| part parts] eqn:Hsplit; [done |].
    change (join "-" ("" :: part :: parts))
      with ("" ++ "-" ++ join "-" (part :: parts)).
    by rewrite IH.
  - pose proof (split_nonempty s).
    destruct (split "-" s) as [| part parts] eqn:Hsplit; [done |].
    by rewrite join_cons_char, IH.
Qed.

Lemma contains_hyphen_after_base b f : contains "-" (b ++ "-" ++ f) = true.
Proof.
  induction b as [| c b IH].
  - change ("" ++ "-" ++ f) with (String "-" f). by rewrite contains_hyphen_cons.
  - change (String c b ++ "-" ++ f) with (String c (b ++ "-" ++ f)).
    rewrite contains_hyphen_cons, IH. by destruct (Ascii.eqb c "-").
Qed.

Lemma last_cons_nonempty (x : string) (l : list string) :
  l ≠ [] → List.last (x :: l) "" = List.last l "".
Proof. by destruct l. Qed.

(** X7: the display name of a hyphenated name that is not one of the six
    exceptions.  The text before the first hyphen is the base and all that
    follows is the form: a form among the six prefix forms goes in front;
    a form that starts with mega gives Mega and the base, followed by the
    upper-cased last part when the form itself holds a hyphen; any other
    form goes in parentheses after the base. *)
Theorem format_pokemon_name_shapes (base form : string) :
  contains "-" base = false →
  lower (base ++ "-" ++ form) ∉ hyphenated_species →
  format_pokemon_name (base ++ "-" ++ form) =
    match prefix_forms !! lower form with
    | Some prefix => prefix ++ " " ++ title base
    | None =>
        if startswith (lower form) "mega" then
          if contains "-" form
          then "Mega " ++ title base ++ " " ++ upper (List.last (split "-" form) "")
          else "Mega " ++ title base
        else title base ++ " (" ++ title form ++ ")"
    end.
Proof.
  intros Hbase Hlisted. unfold format_pokemon_name.
  rewrite (bool_decide_eq_false_2 _ Hlisted).
  rewrite contains_hyphen_after_base, (split_after_base _ _ Hbase).
  cbn [negb hd tl]. rewrite join_split.
  destruct (prefix_forms !! lower form); [done |].
  destruct (startswith (lower form) "mega"); [| done].
  rewrite (last_cons_nonempty _ _ (split_nonempty form)).
  destruct (contains "-" form) eqn:Hform.
  - pose proof (split_hyphenated _ Hform) as Hlen. cbn [length].
    by rewrite (proj2 (Nat.ltb_lt _ _)) by lia.
  - by rewrite (split_hyphen_free _ Hform).
Qed.

Lemma format_pokemon_name_shapes_witness :
  format_pokemon_name ("charizard" ++ "-" ++ "mega-y") = "Mega Charizard Y" ∧
  format_pokemon_name ("vulpix" ++ "-" ++ "alola") = "Vulpix (Alola)".
Proof.
  split.
  - rewrite (format_pokemon_name_shapes "charizard" "mega-y");
      [reflexivity | reflexivity | apply (bool_decide_unpack _); by vm_compute].
  - rewrite (format_pokemon_name_shapes "vulpix" "alola");
      [reflexivity | reflexivity | apply (bool_decide_unpack _); by vm_compute].
Defined.

(** *** Names the pre-filter drops and keeps *)

Lemma string_prefix_cons a n c s :
  String.prefix (String a n) (String c s) = true ↔ a = c ∧ String.prefix n s = true.
Proof.
  change (String.prefix (String a n) (String c s))
    with (match ascii_dec a c with
          | left _ => String.prefix n s
          | right _ => false
          end).
  destruct (ascii_dec a c) as [Heq | Hne]; [tauto |].
  split; [done | by intros [? _]].
Qed.

Lemma string_prefix_empty s : String.prefix "" s = true.
Proof. by destruct s. Qed.

Lemma string_prefix_app n t : String.prefix n (n ++ t) = true.
Proof.
  induction n as [| a n IH]; [apply string_prefix_empty |].
  change (String a n ++ t) with (String a (n ++ t)). by apply string_prefix_cons.
Qed.

Lemma contains_cons needle c s :
  contains needle (String c s)
  = if String.prefix needle (String c s) then true else contains needle s.
Proof. done. Qed.

Lemma contains_prefix needle hay :
  String.prefix needle hay = true → contains needle hay = true.
Proof. destruct hay; simpl; by intros ->. Qed.

Lemma contains_infix needle pre post : contains needle (pre ++ needle ++ post) = true.
Proof.
  induction pre as [| c pre IH].
  - change ("" ++ needle ++ post) with (needle ++ post).
    apply contains_prefix, string_prefix_app.
  - change (String c pre ++ needle ++ post) with (String c (pre ++ needle ++ post)).
    rewrite contains_cons, IH. by destruct (String.prefix _ _).
Qed.

Lemma lower_app a b : lower (a ++ b) = lower a ++ lower b.
Proof. induction a as [| c a IH]; simpl; [done | by rewrite IH]. Qed.

Lemma hyphen_free_lower s : contains "-" s = false → contains "-" (lower s) = false.
Proof.
  induction s as [| c s IH]; [done |].
  change (lower (String c s)) with (String (to_lower c) (lower s)).
  rewrite !contains_hyphen_cons.
  destruct (Ascii.eqb c "-") eqn:Hc; [done |]. intros Hs. rewrite (IH Hs).
  assert (Ascii.eqb (to_lower c) "-" = false) as ->; [| done].
  revert Hc. by destruct c as [[] [] [] [] [] [] [] []]; vm_compute.
Qed.

(** An indicator that begins with a hyphen does not occur where no hyphen
    is. *)
Lemma contains_leading n t h :
  contains "-" h = false →
  contains (String "-" n) t = false →
  contains (String "-" n) (h ++ t) = false.
Proof.
  intros Hh Ht. induction h as [| c h IH]; [done |].
  rewrite contains_hyphen_cons in Hh.
  destruct (Ascii.eqb_spec c "-") as [-> | Hc]; [done |].
  change (String c h ++ t) with (String c (h ++ t)).
  rewrite contains_cons, (IH Hh).
  destruct (String.prefix _ _) eqn:Hp; [| done].
  apply string_prefix_cons in Hp as [Heq _]. congruence.
Qed.

(** An indicator that ends in a hyphen occurs before the first hyphen only
    when the text in front of that hyphen ends in the indicator's letters. *)
Lemma string_prefix_trailing t : ∀ n h,
  contains "-" n = false → contains "-" h = false →
  String.prefix (n ++ "-") (h ++ "-" ++ t) = true → String.prefix n h = true.
Proof.
  induction n as [| a n IH]; intros h Hn Hh Hp; [apply string_prefix_empty |].
  rewrite contains_hyphen_cons in Hn.
  destruct (Ascii.eqb_spec a "-") as [-> | Ha]; [done |].
  destruct h as [| c h].
  - change (String.prefix (String a (n ++ "-")) (String "-" t) = true) in Hp.
    apply string_prefix_cons in Hp as [Heq _]. congruence.
  - rewrite contains_hyphen_cons in Hh.
    destruct (Ascii.eqb c "-"); [done |].
    change (String.prefix (String a (n ++ "-")) (String c (h ++ "-" ++ t)) = true) in Hp.
    apply string_prefix_cons in Hp as [-> Hp].
    apply string_prefix_cons. split; [done |]. by apply IH.
Qed.

Lemma contains_trailing n t h :
  contains "-" n = false → contains "-" h = false →
  contains n h = false →
  contains (n ++ "-") ("-" ++ t) = false →
  contains (n ++ "-") (h ++ "-" ++ t) = false.
Proof.
  intros Hn Hh Hnh Ht. induction h as [| c h IH]; [done |].
  rewrite contains_cons in Hnh.
  destruct (String.prefix n (String c h)) eqn:Hpre; [done |].
  assert (contains "-" h = false) as Hh'.
  { rewrite contains_hyphen_cons in Hh. by destruct (Ascii.eqb c "-"). }
  change (String c h ++ "-" ++ t) with (String c (h ++ "-" ++ t)).
  rewrite contains_cons, (IH Hh' Hnh).
  destruct (String.prefix (n ++ "-") _) eqn:Hp; [| done].
  change (String c (h ++ "-" ++ t)) with (String c h ++ "-" ++ t) in Hp.
  apply string_prefix_trailing in Hp; [congruence | done | done].
Qed.

(** A name that holds one of the four indicators is a Gigantamax or gender
    form for the pre-filter. *)
Lemma is_gmax_or_gender_form_indicator indicator pre post :
  indicator ∈ ["gmax-"; "gigantamax-"; "-male"; "-female"] →
  is_gmax_or_gender_form (pre ++ indicator ++ post) = true.
Proof.
  intros Hin. unfold is_gmax_or_gender_form. apply existsb_exists.
  exists indicator. split; [by apply list_elem_of_In |].
  rewrite !lower_app.
  assert (lower indicator = indicator) as ->.
  { repeat (apply elem_of_cons in Hin as [-> | Hin]; [done |]).
    by apply elem_of_nil in Hin. }
  apply contains_infix.
Qed.

(** The name the catalog gives a Gigantamax form, the base name followed
    by "-gmax", holds none of them. *)
Lemma is_gmax_or_gender_form_gmax_suffix base :
  contains "-" base = false →
  contains "gmax" (lower base) = false →
  contains "gigantamax" (lower base) = false →
  is_gmax_or_gender_form (base ++ "-gmax") = false.
Proof.
  intros Hfree Hgmax Hgiga. apply hyphen_free_lower in Hfree.
  unfold is_gmax_or_gender_form. rewrite lower_app.
  change (lower "-gmax") with ("-" ++ "gmax").
  cbn [existsb app].
  pose proof (contains_trailing "gmax" "gmax" _ eq_refl Hfree Hgmax eq_refl) as H1.
  pose proof (contains_trailing "gigantamax" "gmax" _ eq_refl Hfree Hgiga eq_refl) as H2.
  pose proof (contains_leading "male" "-gmax" _ Hfree eq_refl) as H3.
  pose proof (contains_leading "female" "-gmax" _ Hfree eq_refl) as H4.
  change (contains "gmax-" (lower base ++ "-" ++ "gmax") = false) in H1.
  change (contains "gigantamax-" (lower base ++ "-" ++ "gmax") = false) in H2.
  change (contains "-male" (lower base ++ "-" ++ "gmax") = false) in H3.
  change (contains "-female" (lower base ++ "-" ++ "gmax") = false) in H4.
  by rewrite H1, H2, H3, H4.
Qed.

Lemma is_special_form_gmax_suffix base :
  contains "-" base = false → is_special_form (base ++ "-gmax") = true.
Proof.
  intros Hfree. unfold is_special_form.
  change (base ++ "-gmax") with (base ++ "-" ++ "gmax").
  rewrite contains_hyphen_after_base.
  assert (base ++ "-" ++ "gmax" ∉ hyphenated_species) as Hout.
  { intros Hin. unfold hyphenated_species in Hin.
    repeat (apply elem_of_cons in Hin as [Heq | Hin];
            [apply (f_equal (split "-")) in Heq;
             rewrite (split_after_base _ _ Hfree) in Heq; by vm_compute in Heq |]).
    by apply elem_of_nil in Hin. }
  by rewrite (bool_decide_eq_false_2 _ Hout).
Qed.

Lemma elem_of_filter_forms include_forms all_pokemon pokemon :
  pokemon ∈ filter_forms include_forms all_pokemon ↔
  pokemon ∈ all_pokemon ∧
  (if is_gmax_or_gender_form (l_name pokemon) then false
   else if negb (is_special_form (l_name pokemon)) then true
        else include_forms) = true.
Proof. unfold filter_forms. rewrite !list_elem_of_In. apply filter_In. Qed.

(** X8: the pre-filter drops, whatever the flag, every entry whose name
    holds one of the four indicators "gmax-", "gigantamax-", "-male" and
    "-female".  A name made of a hyphen-free base and "-gmax", the way the
    catalog names Gigantamax forms, holds none of them: such an entry is
    treated as any other special form, kept exactly when the flag is set.
    Without the flag no special form is kept, and setting the flag only
    adds entries, in their catalog order. *)
Theorem filter_forms_keeps (include_forms : bool) (all_pokemon : list listing) :
  (∀ pokemon indicator pre post,
     indicator ∈ ["gmax-"; "gigantamax-"; "-male"; "-female"] →
     l_name pokemon = pre ++ indicator ++ post →
     pokemon ∉ filter_forms include_forms all_pokemon) ∧
  (∀ pokemon base,
     pokemon ∈ all_pokemon →
     l_name pokemon = base ++ "-gmax" →
     contains "-" base = false →
     contains "gmax" (lower base) = false →
     contains "gigantamax" (lower base) = false →
     (pokemon ∈ filter_forms include_forms all_pokemon ↔ include_forms = true)) ∧
  Forall (fun pokemon => is_special_form (l_name pokemon) = false)
         (filter_forms false all_pokemon) ∧
  filter_forms false all_pokemon `sublist_of` filter_forms include_forms all_pokemon ∧
  filter_forms include_forms all_pokemon `sublist_of` all_pokemon.
Proof.
  split_and!.
  - intros pokemon indicator pre post Hin Hname.
    rewrite elem_of_filter_forms, Hname.
    rewrite (is_gmax_or_gender_form_indicator _ _ _ Hin). by intros [_ ?].
  - intros pokemon base Hin Hname Hfree Hgmax Hgiga.
    rewrite elem_of_filter_forms, Hname.
    rewrite (is_gmax_or_gender_form_gmax_suffix _ Hfree Hgmax Hgiga).
    rewrite (is_special_form_gmax_suffix _ Hfree). simpl. tauto.
  - unfold filter_forms.
    induction all_pokemon as [| p l IH]; simpl; [constructor |].
    destruct (is_gmax_or_gender_form (l_name p)); [done |].
    destruct (is_special_form (l_name p)) eqn:Hs; simpl; [done | by constructor].
  - unfold filter_forms.
    induction all_pokemon as [| p l IH]; simpl; [constructor |].
    destruct (is_gmax_or_gender_form (l_name p)); [done |].
    destruct (is_special_form (l_name p)); simpl; [| by constructor].
    destruct include_forms; [by constructor | done].
  - unfold filter_forms.
    induction all_pokemon as [| p l IH]; simpl; [constructor |].
    destruct (is_gmax_or_gender_form (l_name p)); [by constructor |].
    destruct (is_special_form (l_name p)); simpl; [| by constructor].
    destruct include_forms; by constructor.
Qed.

Lemma filter_forms_keeps_witness :
  Listing "charizard-gmax" (pokemon_url "charizard-gmax")
    ∈ filter_forms true [Listing "charizard-gmax" (pokemon_url "charizard-gmax");
                         Listing "indeedee-female" (pokemon_url "indeedee-female")] ∧
  (Listing "indeedee-female" (pokemon_url "indeedee-female")
    ∉ filter_forms true [Listing "charizard-gmax" (pokemon_url "charizard-gmax");
                         Listing "indeedee-female" (pokemon_url "indeedee-female")]).
Proof.
  split.
  - apply (proj1 (proj2 (filter_forms_keeps true _)) _ "charizard");
      [apply list_elem_of_here | reflexivity ..].
  - apply (proj1 (filter_forms_keeps true _) _ "-female" "indeedee" "").
    + apply (bool_decide_unpack _). by vm_compute.
    + reflexivity.
Defined.

(** *** Signatures *)

Lemma string_compare_refl s : String.compare s s = Eq.
Proof.
  induction s as [| c s IH]; [done |]. simpl.
  unfold Ascii.compare. by rewrite N.compare_refl.
Qed.

Lemma string_compare_lt_trans s1 : ∀ s2 s3,
  String.compare s1 s2 = Lt → String.compare s2 s3 = Lt → String.compare s1 s3 = Lt.
Proof.
  induction s1 as [| c1 s1 IH]; intros [| c2 s2] [| c3 s3]; simpl; try done.
  unfold Ascii.compare.
  destruct (N.compare_spec (N_of_ascii c1) (N_of_ascii c2)) as [H12 | H12 | H12];
    destruct (N.compare_spec (N_of_ascii c2) (N_of_ascii c3)) as [H23 | H23 | H23];
    try done.
  - rewrite H12, H23, N.compare_refl. apply IH.
  - intros _ _.
    by assert ((N_of_ascii c1 ?= N_of_ascii c3)%N = Lt) as ->
      by (apply N.compare_lt_iff; lia).
  - intros _ _.
    by assert ((N_of_ascii c1 ?= N_of_ascii c3)%N = Lt) as ->
      by (apply N.compare_lt_iff; lia).
  - intros _ _.
    by assert ((N_of_ascii c1 ?= N_of_ascii c3)%N = Lt) as ->
      by (apply N.compare_lt_iff; lia).
Qed.

Lemma string_leb_iff s1 s2 :
  String.leb s1 s2 = true ↔ String.compare s1 s2 = Lt ∨ s1 = s2.
Proof.
  unfold String.leb. split.
  - destruct (String.compare s1 s2) eqn:Hcmp; try done.
    + intros _. right. by apply String.compare_eq_iff.
    + intros _. by left.
  - intros [-> | ->]; [done |]. by rewrite string_compare_refl.
Qed.

Lemma string_leb_trans s1 s2 s3 :
  String.leb s1 s2 = true → String.leb s2 s3 = true → String.leb s1 s3 = true.
Proof.
  rewrite !string_leb_iff. intros [H12 | ->] [H23 | ->]; auto.
  left. by eapply string_compare_lt_trans.
Qed.

Lemma insert_sorted_perm x l : Permutation (x :: l) (insert_sorted x l).
Proof.
  induction l as [| y l IH]; simpl; [done |].
  destruct (String.leb x y); [done |].
  rewrite <- IH. apply perm_swap.
Qed.

Lemma insert_sorted_sorted x l :
  StronglySorted (fun a b => String.leb a b = true) l →
  StronglySorted (fun a b => String.leb a b = true) (insert_sorted x l).
Proof.
  induction 1 as [| y l Hl IH Hy]; simpl.
  - repeat constructor.
  - destruct (String.leb x y) eqn:Hxy.
    + constructor; [by constructor |].
      constructor; [done |].
      eapply Forall_impl; [exact Hy |].
      intros z Hz. by eapply string_leb_trans.
    + constructor; [done |].
      rewrite <- (insert_sorted_perm x l). constructor; [| done].
      by destruct (String.leb_total x y) as [Hle | Hle]; [congruence |].
Qed.

Lemma sorted_perm l : Permutation l (sorted l).
Proof.
  induction l as [| x l IH]; simpl; [done |].
  rewrite <- insert_sorted_perm. by constructor.
Qed.

Lemma sorted_sorted l : StronglySorted (fun a b => String.leb a b = true) (sorted l).
Proof.
  induction l as [| x l IH]; simpl; [constructor |].
  by apply insert_sorted_sorted.
Qed.

Lemma sorted_unique l l' : Permutation l l' → sorted l = sorted l'.
Proof.
  intros Hperm.
  apply (StronglySorted_unique_strong (fun a b => String.leb a b = true)).
  - intros x1 x2 _ _. apply String.leb_antisym.
  - apply sorted_sorted.
  - apply sorted_sorted.
  - by rewrite <- !sorted_perm.
Qed.

(** X9: two records have the same signature exactly when they have the
    same type names up to order and the same stat values in order. *)
Theorem signature_ignores_type_order (data other : pokemon_data) :
  get_pokemon_signature data = get_pokemon_signature other
  ↔ Permutation (map type_name (pd_types data)) (map type_name (pd_types other))
    ∧ map base_stat (pd_stats data) = map base_stat (pd_stats other).
Proof.
  unfold get_pokemon_signature. split.
  - intros [= Htypes Hstats]. split; [| done].
    rewrite (sorted_perm (map type_name (pd_types data))), Htypes.
    symmetry. apply sorted_perm.
  - intros [Hperm ->]. by rewrite (sorted_unique _ _ Hperm).
Qed.

(** ** The gateway and its caches *)

(** One attempt of the detail loop makes one request, leaves the species
    cache alone, and changes the detail cache only by storing the record it
    returns. *)
Lemma details_attempt_frame url max_retries retry_delay attempt w r w' :
  details_attempt url max_retries retry_delay attempt w = (r, w') →
  same_service w w' ∧
  species_info_cache w' = species_info_cache w ∧
  requests_made w' = S (requests_made w) ∧
  match r with
  | Ok (Return (Some data)) =>
      pokemon_details_cache w' = <[url := data]> (pokemon_details_cache w)
  | Ok (Return None) => False
  | _ => pokemon_details_cache w' = pokemon_details_cache w
  end.
Proof.
  intros Hrun.
  apply details_attempt_outcome in Hrun as (Hpe & Hse & Hsc & Hreq & Hout).
  split_and!; try done.
  destruct r as [[[data |] | u] | e]; try done.
  - by destruct Hout as (resp & _ & _ & _ & Hcache).
  - by destruct Hout as [Hcache _].
  - destruct e; try done.
    + by destruct Hout as [Hcache _].
    + by destruct Hout as [Hcache _].
    + by destruct Hout as (_ & _ & _ & Hcache & _).
Qed.

Lemma details_attempts_frame url max_retries retry_delay :
  ∀ attempts w r w',
    details_attempts url max_retries retry_delay attempts w = (r, w') →
    same_service w w' ∧
    species_info_cache w' = species_info_cache w ∧
    requests_within (length attempts) w w' ∧
    match r with
    | Ok (Some data) =>
        pokemon_details_cache w' = <[url := data]> (pokemon_details_cache w)
    | _ => pokemon_details_cache w' = pokemon_details_cache w
    end.
Proof.
  unfold same_service, requests_within.
  induction attempts as [| attempt later IH]; intros w r w'; simpl.
  - intros [= <- <-]. split_and!; try done; lia.
  - unfold mbind, M_bind, bind.
    destruct (details_attempt url max_retries retry_delay attempt w)
      as [r1 w1] eqn:Hstep.
    apply details_attempt_frame in Hstep as ([Hpe Hse] & Hsc & Hreq & Hone).
    destruct r1 as [[[data |] | u] | e].
    + intros [= <- <-]. split_and!; try done; lia.
    + done.
    + intros Hrest.
      apply IH in Hrest as ([Hpe' Hse'] & Hsc' & [Hlo Hhi] & Hcache).
      split_and!; try congruence; try lia.
      destruct r as [[data |] | e]; congruence.
    + intros [= <- <-]. split_and!; try done; lia.
Qed.

(** What a call does to the world, hit or miss. *)
Lemma get_pokemon_details_effect url max_retries retry_delay w r w' :
  get_pokemon_details url max_retries retry_delay w = (r, w') →
  same_service w w' ∧
  species_info_cache w' = species_info_cache w ∧
  requests_within max_retries w w' ∧
  pokemon_details_cache w ⊆ pokemon_details_cache w' ∧
  match r with
  | Ok (Some data) => pokemon_details_cache w' !! url = Some data
  | _ => pokemon_details_cache w' = pokemon_details_cache w
  end.
Proof.
  unfold get_pokemon_details. run_gateway.
  destruct (pokemon_details_cache w !! url) as [data |] eqn:Hcache.
  - intros [= <- <-]. unfold same_service, requests_within.
    split_and!; try done; lia.
  - intros Hrun.
    apply details_attempts_frame in Hrun as (Hsame & Hsc & Hreq & Hstore).
    rewrite length_seq in Hreq.
    split_and!; try done.
    + destruct r as [[data |] | e]; try by rewrite Hstore.
      rewrite Hstore. by apply insert_subseteq.
    + destruct r as [[data |] | e]; try done.
      rewrite Hstore. apply lookup_insert_eq.
Qed.

(** X10: a call of [get_pokemon_details] leaves the remote service and the
    species cache alone, makes at most [max_retries] requests and none on
    a cache hit, never drops or changes a cached record, and stores a
    record exactly when it returns one. *)
Theorem get_pokemon_details_frame
    (url : string) (max_retries : nat) (retry_delay : Z) (w w' : world)
    (r : result (option pokemon_data)) :
  get_pokemon_details url max_retries retry_delay w = (r, w') →
  same_service w w' ∧
  species_info_cache w' = species_info_cache w ∧
  requests_within max_retries w w' ∧
  (is_Some (pokemon_details_cache w !! url) → w' = w) ∧
  pokemon_details_cache w ⊆ pokemon_details_cache w' ∧
  match r with
  | Ok (Some data) => pokemon_details_cache w' !! url = Some data
  | _ => pokemon_details_cache w' = pokemon_details_cache w
  end.
Proof.
  intros Hrun.
  destruct (get_pokemon_details_effect _ _ _ _ _ _ Hrun)
    as (Hsame & Hsc & Hreq & Hsub & Hstore).
  split_and!; try done.
  intros [hit Hhit]. unfold get_pokemon_details in Hrun. run_gateway.
  rewrite Hhit in Hrun. by injection Hrun as _ <-.
Qed.

Lemma get_pokemon_details_frame_witness :
  requests_within 3 failing_world
    (snd (get_pokemon_details (pokemon_url "pikachu") 3 1 failing_world)) ∧
  pokemon_details_cache
    (snd (get_pokemon_details (pokemon_url "pikachu") 3 1 failing_world)) = ∅.
Proof.
  destruct (get_pokemon_details_frame (pokemon_url "pikachu") 3 1 failing_world
              (snd (get_pokemon_details (pokemon_url "pikachu") 3 1 failing_world))
              (Ok None))
    as (_ & _ & Hreq & _ & _ & Hcache).
  - vm_compute. reflexivity.
  - split; [exact Hreq | exact Hcache].
Defined.

(** X11: a record returned once is returned again, from the cache: the
    second call makes no request and changes nothing. *)
Theorem get_pokemon_details_memoized
    (url : string) (max_retries : nat) (retry_delay : Z) (w w' : world)
    (data : pokemon_data) :
  get_pokemon_details url max_retries retry_delay w = (Ok (Some data), w') →
  ∀ max_retries' retry_delay',
    get_pokemon_details url max_retries' retry_delay' w' = (Ok (Some data), w').
Proof.
  intros Hrun max_retries' retry_delay'.
  apply get_pokemon_details_effect in Hrun as (_ & _ & _ & _ & Hcache).
  unfold get_pokemon_details. run_gateway. by rewrite Hcache.
Qed.

Lemma get_pokemon_details_memoized_witness :
  get_pokemon_details (pokemon_url "pikachu") 0 1
    (snd (get_pokemon_details (pokemon_url "pikachu") 3 1 pikachu_world))
  = (Ok (Some pikachu),
     snd (get_pokemon_details (pokemon_url "pikachu") 3 1 pikachu_world)).
Proof.
  apply (get_pokemon_details_memoized (pokemon_url "pikachu") 3 1 pikachu_world).
  vm_compute. reflexivity.
Defined.

(** One attempt of the species loop makes one request, leaves the detail
    cache alone, and changes the species cache only by storing, under the
    id asked for, the record it returns. *)
Lemma species_attempt_frame pokemon_id max_retries retry_delay url attempt w r w' :
  species_attempt pokemon_id max_retries retry_delay url attempt w = (r, w') →
  same_service w w' ∧
  pokemon_details_cache w' = pokemon_details_cache w ∧
  requests_made w' = S (requests_made w) ∧
  match r with
  | Ok (Return data) =>
      species_info_cache w' = <[pokemon_id := data]> (species_info_cache w)
  | _ => species_info_cache w' = species_info_cache w
  end.
Proof.
  unfold species_attempt, same_service. run_gateway.
  destruct (species_endpoint w (requests_made w) url) as [| resp].
  - destruct (Z.of_nat attempt <? Z.of_nat max_retries - 1).
    + case_sleep retry_delay; intros [= <- <-]; simpl; done.
    + intros [= <- <-]; simpl; done.
  - destruct (status_code resp =? 200).
    + destruct (body resp) as [data |].
      * intros [= <- <-]; simpl; done.
      * destruct (Z.of_nat attempt <? Z.of_nat max_retries - 1).
        -- case_sleep retry_delay; intros [= <- <-]; simpl; done.
        -- intros [= <- <-]; simpl; done.
    + destruct (status_code resp =? 404).
      * destruct (isdigit _); intros [= <- <-]; simpl; done.
      * destruct (status_code resp =? 429).
        -- destruct (retry_after resp) as [[n |] |]; simpl.
           ++ case_sleep n; intros [= <- <-]; simpl; done.
           ++ intros [= <- <-]; simpl; done.
           ++ case_sleep (retry_delay * 2); intros [= <- <-]; simpl; done.
        -- case_sleep retry_delay; intros [= <- <-]; simpl; done.
Qed.

Lemma species_attempts_frame pokemon_id max_retries retry_delay :
  ∀ attempts url w r w',
    species_attempts pokemon_id max_retries retry_delay url attempts w = (r, w') →
    same_service w w' ∧
    pokemon_details_cache w' = pokemon_details_cache w ∧
    requests_within (length attempts) w w' ∧
    match r with
    | Ok data => species_info_cache w' = <[pokemon_id := data]> (species_info_cache w)
    | Raise _ => species_info_cache w' = species_info_cache w
    end.
Proof.
  unfold same_service, requests_within.
  induction attempts as [| attempt later IH]; intros url w r w'; simpl.
  - run_gateway. intros [= <- <-]. simpl. split_and!; try done; lia.
  - unfold mbind, M_bind, bind.
    destruct (species_attempt pokemon_id max_retries retry_delay url attempt w)
      as [r1 w1] eqn:Hstep.
    apply species_attempt_frame in Hstep as ([Hpe Hse] & Hpc & Hreq & Hone).
    destruct r1 as [[data | u] | e].
    + intros [= <- <-]. split_and!; try done; lia.
    + intros Hrest.
      apply IH in Hrest as ([Hpe' Hse'] & Hpc' & [Hlo Hhi] & Hcache).
      split_and!; try congruence; try lia.
      destruct r as [data | e]; congruence.
    + intros [= <- <-]. split_and!; try done; lia.
Qed.

(** What a call does to the world, hit or miss. *)
Lemma get_species_info_effect pokemon_id max_retries retry_delay w r w' :
  get_species_info pokemon_id max_retries retry_delay w = (r, w') →
  same_service w w' ∧
  pokemon_details_cache w' = pokemon_details_cache w ∧
  requests_within max_retries w w' ∧
  species_info_cache w ⊆ species_info_cache w' ∧
  match r with
  | Ok data => species_info_cache w' !! pokemon_id = Some data
  | Raise _ => species_info_cache w' = species_info_cache w
  end.
Proof.
  unfold get_species_info. run_gateway.
  destruct (species_info_cache w !! pokemon_id) as [data |] eqn:Hcache.
  - intros [= <- <-]. unfold same_service, requests_within.
    split_and!; try done; lia.
  - intros Hrun.
    apply species_attempts_frame in Hrun as (Hsame & Hpc & Hreq & Hstore).
    rewrite length_seq in Hreq.
    split_and!; try done.
    + destruct r as [data | e]; rewrite Hstore; [by apply insert_subseteq | done].
    + destruct r as [data | e]; [| done].
      rewrite Hstore. apply lookup_insert_eq.
Qed.

(** X12: a call of [get_species_info] leaves the remote service and the
    detail cache alone, makes at most [max_retries] requests and none on a
    cache hit, never drops or changes a cached record, and whenever it
    returns a record, the default one included, that record is in the cache
    under the id asked for; when it raises the cache is unchanged. *)
Theorem get_species_info_frame
    (pokemon_id : Z) (max_retries : nat) (retry_delay : Z) (w w' : world)
    (r : result species_data) :
  get_species_info pokemon_id max_retries retry_delay w = (r, w') →
  same_service w w' ∧
  pokemon_details_cache w' = pokemon_details_cache w ∧
  requests_within max_retries w w' ∧
  (is_Some (species_info_cache w !! pokemon_id) → w' = w) ∧
  species_info_cache w ⊆ species_info_cache w' ∧
  match r with
  | Ok data => species_info_cache w' !! pokemon_id = Some data
  | Raise _ => species_info_cache w' = species_info_cache w
  end.
Proof.
  intros Hrun.
  destruct (get_species_info_effect _ _ _ _ _ _ Hrun)
    as (Hsame & Hpc & Hreq & Hsub & Hstore).
  split_and!; try done.
  intros [hit Hhit]. unfold get_species_info in Hrun. run_gateway.
  rewrite Hhit in Hrun. by injection Hrun as _ <-.
Qed.

Lemma get_species_info_frame_witness :
  species_info_cache (snd (get_species_info 25 3 1 rate_limited_world)) !! 25
  = Some default_data.
Proof.
  destruct (get_species_info_frame 25 3 1 rate_limited_world
              (snd (get_species_info 25 3 1 rate_limited_world)) (Ok default_data))
    as (_ & _ & _ & _ & _ & Hcache).
  - vm_compute. reflexivity.
  - exact Hcache.
Defined.

(** X13: whatever [get_species_info] returned for an id, a second call
    returns the same from the cache, with no request and no change; the
    retry cost of an unresolvable id is paid once. *)
Theorem get_species_info_memoized
    (pokemon_id : Z) (max_retries : nat) (retry_delay : Z) (w w' : world)
    (data : species_data) :
  get_species_info pokemon_id max_retries retry_delay w = (Ok data, w') →
  ∀ max_retries' retry_delay',
    get_species_info pokemon_id max_retries' retry_delay' w' = (Ok data, w').
Proof.
  intros Hrun max_retries' retry_delay'.
  apply get_species_info_effect in Hrun as (_ & _ & _ & _ & Hcache).
  unfold get_species_info. run_gateway. by rewrite Hcache.
Qed.

Lemma get_species_info_memoized_witness :
  get_species_info 25 3 1 (snd (get_species_info 25 3 1 rate_limited_world))
  = (Ok default_data, snd (get_species_info 25 3 1 rate_limited_world)).
Proof.
  apply (get_species_info_memoized 25 3 1 rate_limited_world).
  vm_compute. reflexivity.
Defined.

(** X14: [get_national_dex_number] never raises and makes at most three
    requests.  Its answer is read off the species cache as the call leaves
    it: the id of the record cached for the entity, and the entity's own id
    when that record has no id or nothing is cached (the lookup raised). *)
Theorem get_national_dex_number_fallback
    (pokemon_name : string) (pokemon_id : Z) (w : world) :
  ∃ n w', get_national_dex_number pokemon_name pokemon_id w = (Ok n, w') ∧
    requests_within 3 w w' ∧
    pokemon_details_cache w' = pokemon_details_cache w ∧
    match species_info_cache w' !! pokemon_id with
    | Some species => n = default pokemon_id (sp_id species)
    | None => n = pokemon_id
    end.
Proof.
  unfold get_national_dex_number, try_except, mbind, M_bind, bind, ret.
  destruct (get_species_info pokemon_id 3 1 w) as [[species | e] w1] eqn:Hrun.
  - apply get_species_info_effect in Hrun as (_ & Hpc & Hreq & _ & Hcache).
    exists (default pokemon_id (sp_id species)), w1.
    rewrite Hcache. split_and!; try done. by destruct (sp_id species).
  - exists pokemon_id, w1.
    destruct (species_info_cache w !! pokemon_id) as [hit |] eqn:Hhit.
    { unfold get_species_info in Hrun. run_gateway. by rewrite Hhit in Hrun. }
    apply get_species_info_effect in Hrun as (_ & Hpc & Hreq & _ & Hcache).
    rewrite Hcache, Hhit. done.
Qed.

(** *** Species lookups that are not found *)

Lemma is_digit_pretty_N_char y : is_digit (pretty_N_char y) = true.
Proof. unfold pretty_N_char. by repeat case_match. Qed.

Lemma pretty_N_go_digits x : ∀ s,
  all_digits s = true → all_digits (pretty_N_go x s) = true.
Proof.
  induction (N.lt_wf_0 x) as [x _ IH]; intros s Hs.
  assert (x = 0 ∨ 0 < x)%N as [-> | Hx] by lia.
  - by rewrite pretty_N_go_0.
  - rewrite pretty_N_go_step by done. apply IH.
    + by apply N.div_lt.
    + simpl. by rewrite is_digit_pretty_N_char, Hs.
Qed.

Lemma pretty_N_go_nonempty x : ∀ s, s ≠ "" → pretty_N_go x s ≠ "".
Proof.
  induction (N.lt_wf_0 x) as [x _ IH]; intros s Hs.
  assert (x = 0 ∨ 0 < x)%N as [-> | Hx] by lia.
  - by rewrite pretty_N_go_0.
  - rewrite pretty_N_go_step by done. apply IH; [by apply N.div_lt | done].
Qed.

(** The decimal text of a non-negative integer is a run of digits. *)
Lemma str_nonneg_isdigit z : 0 ≤ z → isdigit (str z) = true.
Proof.
  intros Hz. destruct z as [| p | p]; [done | | lia].
  unfold str, pretty, pretty_Z, pretty, pretty_positive, pretty, pretty_N.
  destruct (decide (N.pos p = 0%N)) as [| _]; [done |].
  assert (pretty_N_go (N.pos p) "" ≠ "") as Hne.
  { rewrite pretty_N_go_step by lia. by apply pretty_N_go_nonempty. }
  unfold isdigit. destruct (pretty_N_go (N.pos p) "") eqn:Hgo; [done |].
  rewrite <- Hgo. by apply pretty_N_go_digits.
Qed.

Lemma all_digits_hyphen_free s : all_digits s = true → contains "-" s = false.
Proof.
  induction s as [| c s IH]; [done |]. simpl all_digits.
  intros [Hc Hs]%andb_true_iff. rewrite contains_hyphen_cons, (IH Hs).
  destruct (Ascii.eqb_spec c "-") as [-> | _]; [by vm_compute in Hc | done].
Qed.

Lemma isdigit_all_digits s : isdigit s = true → all_digits s = true.
Proof. by destruct s. Qed.

(** For a non-negative id the base id is the id itself, so the fallback
    asks for the same URL again. *)
Lemma base_id_nonneg z :
  0 ≤ z → hd "" (split "-" (str z)) = str z.
Proof.
  intros Hz.
  by rewrite (split_hyphen_free _
                (all_digits_hyphen_free _
                   (isdigit_all_digits _ (str_nonneg_isdigit z Hz)))).
Qed.

Lemma base_id_negative z : z < 0 → hd "" (split "-" (str z)) = "".
Proof. intros Hz. destruct z as [| p | p]; [lia | lia | done]. Qed.

Lemma species_attempts_not_found pokemon_id max_retries retry_delay :
  0 ≤ pokemon_id →
  ∀ n a w,
    (∀ k, (k < n)%nat →
       ∃ resp, species_endpoint w (requests_made w + k)%nat
                 (species_url (str pokemon_id)) = Answer resp ∧
               status_code resp = 404) →
    species_attempts pokemon_id max_retries retry_delay
      (species_url (str pokemon_id)) (seq a n) w =
    (Ok default_data,
     World (pokemon_endpoint w) (species_endpoint w) (requests_made w + n)%nat
           (slept w) (pokemon_details_cache w)
           (<[pokemon_id := default_data]> (species_info_cache w))).
Proof.
  intros Hid. induction n as [| n IH]; intros a w Hall.
  - simpl. run_gateway. by rewrite Nat.add_0_r.
  - change (seq a (S n)) with (a :: seq (S a) n). cbn [species_attempts].
    unfold mbind, M_bind, bind.
    destruct (Hall 0%nat ltac:(lia)) as (resp & Hresp & H404).
    rewrite Nat.add_0_r in Hresp.
    assert (species_attempt pokemon_id max_retries retry_delay
              (species_url (str pokemon_id)) a w
            = (Ok (NextAttempt (species_url (str pokemon_id))), tick w)) as ->.
    { unfold species_attempt. run_gateway. rewrite Hresp, H404. simpl.
      by rewrite (base_id_nonneg _ Hid), (str_nonneg_isdigit _ Hid). }
    rewrite IH.
    + unfold tick; simpl. by rewrite Nat.add_succ_r.
    + intros k Hk. unfold tick; cbn [species_endpoint requests_made].
      destruct (Hall (S k) ltac:(lia)) as (resp' & Hresp' & H404').
      exists resp'. by rewrite Nat.add_succ_comm.
Qed.

(** X15: how [get_species_info] treats 404 answers on a cache miss.  For a
    non-negative id the base id derived from it is the id itself, so each
    404 is followed by a request for the same URL, without a pause, and
    after [max_retries] of them the default record is stored and returned.
    For a negative id the first 404 stores and returns the default record
    at once. *)
Theorem get_species_info_not_found
    (pokemon_id : Z) (max_retries : nat) (retry_delay : Z) (w : world) :
  species_info_cache w !! pokemon_id = None →
  (0 ≤ pokemon_id →
   (∀ k, (k < max_retries)%nat →
      ∃ resp, species_endpoint w (requests_made w + k)%nat
                (species_url (str pokemon_id)) = Answer resp ∧
              status_code resp = 404) →
   get_species_info pokemon_id max_retries retry_delay w =
   (Ok default_data,
    World (pokemon_endpoint w) (species_endpoint w)
          (requests_made w + max_retries)%nat
          (slept w) (pokemon_details_cache w)
          (<[pokemon_id := default_data]> (species_info_cache w)))) ∧
  (pokemon_id < 0 →
   (∃ resp, species_endpoint w (requests_made w)
              (species_url (str pokemon_id)) = Answer resp ∧
            status_code resp = 404) →
   get_species_info pokemon_id (S max_retries) retry_delay w =
   (Ok default_data,
    World (pokemon_endpoint w) (species_endpoint w) (S (requests_made w))
          (slept w) (pokemon_details_cache w)
          (<[pokemon_id := default_data]> (species_info_cache w)))).
Proof.
  intros Hmiss. split.
  - intros Hid Hall. unfold get_species_info. run_gateway. rewrite Hmiss.
    by apply species_attempts_not_found.
  - intros Hid (resp & Hresp & H404).
    unfold get_species_info. run_gateway. rewrite Hmiss.
    change (seq 0 (S max_retries)) with (0%nat :: seq 1 max_retries).
    cbn [species_attempts]. unfold mbind, M_bind, bind.
    unfold species_attempt. run_gateway. rewrite Hresp, H404. simpl.
    by rewrite (base_id_negative _ Hid).
Qed.

Lemma get_species_info_not_found_witness :
  fst (get_species_info 122 3 1 failing_world) = Ok default_data ∧
  requests_made (snd (get_species_info 122 3 1 failing_world)) = 3%nat ∧
  slept (snd (get_species_info 122 3 1 failing_world)) = [].
Proof.
  destruct (get_species_info_not_found 122 3 1 failing_world eq_refl) as [Hrun _].
  rewrite Hrun.
  - split_and!; reflexivity.
  - lia.
  - intros k _. exists not_found. split; reflexivity.
Defined.

(** ** The pipeline *)

(** X16: the base-form comparison never raises, and it asks to skip the
    entity exactly when the base form's detail fetch returned a record
    whose signature equals the entity's; a fetch that fails or yields
    nothing leaves the entity in as a form of its own. *)
Theorem same_as_base_only_on_equal_signature
    (base_name : string) (pokemon_signature : signature) (w : world) :
  ∃ skip,
    same_as_base base_name pokemon_signature w
    = (Ok skip, snd (get_pokemon_details (pokemon_url base_name) 3 1 w)) ∧
    (skip = true ↔
     ∃ base, fst (get_pokemon_details (pokemon_url base_name) 3 1 w) = Ok (Some base) ∧
             get_pokemon_signature base = pokemon_signature).
Proof.
  unfold same_as_base, try_except, mbind, M_bind, bind, ret, raise.
  destruct (get_pokemon_details _ 3 1 w) as [[[base |] | e] w']; simpl.
  - eexists. split; [done |]. rewrite bool_decide_eq_true. split.
    + intros Hsame. by exists base.
    + by intros (base' & [= <-] & Hsame).
  - exists false. split; [done |]. split; [done | by intros (? & ? & _)].
  - exists false. split; [done |]. split; [done | by intros (? & ? & _)].
Qed.

Lemma advances_refl w : advances 0 w w.
Proof. unfold advances, same_service, requests_within. split_and!; try done; lia. Qed.

Lemma advances_trans b1 b2 w w1 w2 :
  advances b1 w w1 → advances b2 w1 w2 → advances (b1 + b2) w w2.
Proof.
  unfold advances, same_service, requests_within.
  intros ([Hp1 Hs1] & Hr1 & Hd1 & Hc1) ([Hp2 Hs2] & Hr2 & Hd2 & Hc2).
  split_and!; try congruence; try lia; by etrans.
Qed.

Lemma advances_weaken b b' w w' : (b ≤ b')%nat → advances b w w' → advances b' w w'.
Proof.
  unfold advances, requests_within. intros Hb (Hs & Hr & Hd & Hc).
  split_and!; try done; lia.
Qed.

(** Closing a budget goal from a step already bounded. *)
Ltac within_budget := eapply advances_weaken; [| eassumption]; lia.

Lemma get_pokemon_details_advances url max_retries retry_delay w r w' :
  get_pokemon_details url max_retries retry_delay w = (r, w') →
  advances max_retries w w'.
Proof.
  intros Hrun.
  apply get_pokemon_details_effect in Hrun as (Hs & Hsc & Hreq & Hsub & _).
  unfold advances. by rewrite Hsc.
Qed.

Lemma get_species_info_advances pokemon_id max_retries retry_delay w r w' :
  get_species_info pokemon_id max_retries retry_delay w = (r, w') →
  advances max_retries w w'.
Proof.
  intros Hrun.
  apply get_species_info_effect in Hrun as (Hs & Hpc & Hreq & Hsub & _).
  unfold advances. by rewrite Hpc.
Qed.

Lemma get_national_dex_number_advances pokemon_name pokemon_id w r w' :
  get_national_dex_number pokemon_name pokemon_id w = (r, w') →
  advances 3 w w' ∧ ∃ n, r = Ok n.
Proof.
  unfold get_national_dex_number, try_except, mbind, M_bind, bind, ret.
  destruct (get_species_info pokemon_id 3 1 w) as [[species | e] w1] eqn:Hrun;
    apply get_species_info_advances in Hrun.
  - destruct (sp_id species); intros [= <- <-]; eauto.
  - intros [= <- <-]; eauto.
Qed.

Lemma is_legendary_or_mythical_advances pokemon_name pokemon_id w r w' :
  is_legendary_or_mythical pokemon_name pokemon_id w = (r, w') →
  advances 9 w w' ∧ ∃ answer, r = Ok answer.
Proof.
  unfold is_legendary_or_mythical, legendary_check, try_except,
    mbind, M_bind, bind, ret.
  destruct (get_species_info pokemon_id 3 1 w) as [[own | e] w1] eqn:Hown;
    apply get_species_info_advances in Hown.
  2: { intros [= <- <-]. split; [within_budget | eauto]. }
  destruct (is_legendary own || is_mythical own).
  { intros [= <- <-]. split; [within_budget | eauto]. }
  destruct (is_special_form pokemon_name).
  2: { intros [= <- <-]. split; [within_budget | eauto]. }
  destruct (get_pokemon_details _ 3 1 w1) as [[[base |] | e] w2] eqn:Hbase;
    apply get_pokemon_details_advances in Hbase;
    pose proof (advances_trans _ _ _ _ _ Hown Hbase) as Htwo.
  - destruct (get_species_info (pd_id base) 3 1 w2) as [[sp | e] w3] eqn:Hsp;
      apply get_species_info_advances in Hsp;
      pose proof (advances_trans _ _ _ _ _ Htwo Hsp) as Hthree;
      intros [= <- <-]; eauto.
  - intros [= <- <-]. split; [within_budget | eauto].
  - intros [= <- <-]. split; [within_budget | eauto].
Qed.

Lemma same_as_base_advances base_name pokemon_signature w r w' :
  same_as_base base_name pokemon_signature w = (r, w') → advances 3 w w'.
Proof.
  unfold same_as_base, try_except, mbind, M_bind, bind, ret, raise.
  destruct (get_pokemon_details _ 3 1 w) as [[[base |] | e] w1] eqn:Hbase;
    apply get_pokemon_details_advances in Hbase; by intros [= <- <-].
Qed.

Lemma screen_advances min_bst seen pokemon w r w' :
  screen min_bst seen pokemon w = (r, w') →
  advances 18 w w' ∧
  (is_excluded_pokemon (l_name pokemon) = true → r = Ok (Skip Denylisted) ∧ w' = w).
Proof.
  unfold screen, mbind, M_bind, bind, ret.
  destruct (is_excluded_pokemon _).
  { intros [= <- <-]. split; [| done].
    eapply advances_weaken; [| apply advances_refl]. lia. }
  intros Hrun. split; [| done]. revert Hrun.
  destruct (get_pokemon_details _ 3 1 w) as [[[data |] | e] w1] eqn:Hfetch;
    apply get_pokemon_details_advances in Hfetch.
  2, 3: intros [= <- <-]; within_budget.
  destruct (get_national_dex_number _ _ w1) as [rdex w2] eqn:Hdex.
  apply get_national_dex_number_advances in Hdex as [Hdex [dex ->]].
  destruct (is_legendary_or_mythical _ _ w2) as [rleg w3] eqn:Hleg.
  apply is_legendary_or_mythical_advances in Hleg as [Hleg [answer ->]].
  pose proof (advances_trans _ _ _ _ _ (advances_trans _ _ _ _ _ Hfetch Hdex) Hleg)
    as Hthree.
  destruct answer.
  { intros [= <- <-]. within_budget. }
  unfold screen_threshold.
  destruct (stats_total data <? min_bst).
  { intros [= <- <-]. within_budget. }
  unfold screen_signature, mbind, M_bind, bind, ret.
  case_bool_decide.
  - destruct (same_as_base _ _ w3) as [rs w4] eqn:Hsame.
    destruct (same_as_base_total (get_base_form_name (pd_name data))
                (get_pokemon_signature data) w3) as (skip & w4' & Hsame').
    rewrite Hsame in Hsame'. injection Hsame' as -> ->.
    apply same_as_base_advances in Hsame.
    pose proof (advances_trans _ _ _ _ _ Hthree Hsame) as Hfour.
    destruct skip; [by intros [= <- <-] |].
    destruct (seen !! _); by intros [= <- <-].
  - destruct (seen !! _); intros [= <- <-];
      (within_budget).
Qed.

Lemma accept_advances type_chart c a w v a' w' :
  accept type_chart c a w = (v, a', w') → advances 0 w w'.
Proof.
  unfold accept.
  destruct (calculate_defensive_effectiveness _ _).
  - intros [= <- <- <-]. destruct (_ =? _)%nat; [| apply advances_refl].
    unfold advances, same_service, requests_within. simpl.
    split_and!; try done; lia.
  - intros [= <- <- <-]. apply advances_refl.
Qed.

Lemma analyse_world min_bst type_chart pokemon a w v a' w' :
  analyse min_bst type_chart pokemon a w = (v, a', w') →
  advances 18 w w' ∧
  (is_excluded_pokemon (l_name pokemon) = true → w' = w).
Proof.
  unfold analyse.
  destruct (screen min_bst (processed_signatures a) pokemon w)
    as [r w1] eqn:Hscreen.
  apply screen_advances in Hscreen as [Hadv Hdeny].
  destruct r as [[why | c] | e].
  - intros [= <- <- <-]. split; [done |].
    intros Hlisted. by destruct (Hdeny Hlisted) as [_ ->].
  - intros Haccept. split.
    + apply accept_advances in Haccept.
      eapply advances_weaken; [| by eapply advances_trans]. lia.
    + intros Hlisted. by destruct (Hdeny Hlisted).
  - intros [= <- <- <-]. split; [done |].
    intros Hlisted. by destruct (Hdeny Hlisted).
Qed.

(** X17: processing one catalog entry makes at most 18 requests to the same
    service and only adds to the two caches; a denylisted entry is skipped
    with no request and no change to the world or to the run's variables. *)
Theorem analyse_advances
    (min_bst : Z) (type_chart : gmap string relations) (pokemon : listing)
    (a a' : analysis) (w w' : world) (v : verdict) :
  analyse min_bst type_chart pokemon a w = (v, a', w') →
  advances 18 w w' ∧
  (is_excluded_pokemon (l_name pokemon) = true →
   v = Denylisted ∧ a' = a ∧ w' = w).
Proof.
  intros Hrun.
  destruct (analyse_world _ _ _ _ _ _ _ _ Hrun) as [Hadv _].
  split; [done |]. intros Hlisted.
  unfold analyse, screen in Hrun. rewrite Hlisted in Hrun.
  by injection Hrun as <- <- <-.
Qed.

Lemma analyse_advances_witness :
  advances 18 cap_world
    (snd (analyse 300 sample_chart
            (Listing "pikachu-original-cap" (pokemon_url "pikachu-original-cap"))
            fresh_analysis cap_world)).
Proof.
  eapply (analyse_advances 300 sample_chart
            (Listing "pikachu-original-cap" (pokemon_url "pikachu-original-cap"))
            fresh_analysis).
  vm_compute. reflexivity.
Defined.

(** X18: a whole run makes at most 18 requests for each catalog entry that
    is not denylisted, always to the same service, and the two caches only
    grow: no cached record is dropped or replaced. *)
Theorem analyse_all_advances
    (min_bst : Z) (type_chart : gmap string relations) (all_pokemon : list listing)
    (a a' : analysis) (w w' : world) (vs : list verdict) :
  analyse_all min_bst type_chart all_pokemon a w = (vs, a', w') →
  advances (18 * length (not_denylisted all_pokemon)) w w'.
Proof.
  revert a w vs a' w'.
  induction all_pokemon as [| pokemon rest IH]; intros a w vs a' w'; simpl.
  - intros [= <- <- <-]. apply advances_refl.
  - destruct (analyse min_bst type_chart pokemon a w) as [[v a1] w1] eqn:Hstep.
    destruct (analyse_all min_bst type_chart rest a1 w1) as [[vs1 a2] w2] eqn:Hrest.
    intros [= <- <- <-].
    apply analyse_world in Hstep as [Hadv Hdeny].
    apply IH in Hrest.
    destruct (is_excluded_pokemon (l_name pokemon)) eqn:Hlisted; simpl.
    + by rewrite <- (Hdeny eq_refl).
    + eapply advances_weaken; [| by eapply advances_trans]. lia.
Qed.

Lemma analyse_all_advances_witness :
  advances 18 cap_world
    (snd (analyse_all 300 sample_chart
            [Listing "kartana" (pokemon_url "kartana");
             Listing "pikachu" (pokemon_url "pikachu")]
            fresh_analysis cap_world)).
Proof.
  eapply (analyse_all_advances 300 sample_chart
            [Listing "kartana" (pokemon_url "kartana");
             Listing "pikachu" (pokemon_url "pikachu")] fresh_analysis).
  vm_compute. reflexivity.
Defined.

(** The failures [get_pokemon_details] can raise. *)
Lemma get_pokemon_details_raises url max_retries retry_delay w e w' :
  get_pokemon_details url max_retries retry_delay w = (Raise e, w') →
  e = ValueError ∨ e = OverflowError ∨ e = FailedAfter "data" max_retries.
Proof.
  unfold get_pokemon_details. run_gateway.
  destruct (pokemon_details_cache w !! url); [done |]. intros Hrun.
  apply (details_attempts_outcome url max_retries retry_delay max_retries 0)
    in Hrun as (_ & _ & _ & Hout); [| done].
  destruct e; try done; [by left | by right; left |].
  destruct Hout as (-> & -> & _). by right; right.
Qed.

Lemma screen_raises min_bst seen pokemon w e w' :
  screen min_bst seen pokemon w = (Raise e, w') →
  e = ValueError ∨ e = OverflowError ∨ e = FailedAfter "data" 3.
Proof.
  unfold screen, mbind, M_bind, bind, ret.
  destruct (is_excluded_pokemon _); [done |].
  destruct (get_pokemon_details _ 3 1 w) as [[[data |] | e1] w1] eqn:Hfetch;
    [| done |].
  - destruct (get_national_dex_number _ _ w1) as [rdex w2] eqn:Hdex.
    apply get_national_dex_number_advances in Hdex as [_ [dex ->]].
    destruct (is_legendary_or_mythical _ _ w2) as [rleg w3] eqn:Hleg.
    apply is_legendary_or_mythical_advances in Hleg as [_ [answer ->]].
    destruct answer; [done |]. intros Hrun.
    apply screen_threshold_cases in Hrun as [(? & _) | (_ & Hrun)]; [done |].
    apply screen_signature_cases in Hrun as [? | [? | [? _]]]; done.
  - intros [= <- <-]. by apply get_pokemon_details_raises in Hfetch.
Qed.

(** A candidate meets the threshold. *)
Lemma screen_keep_total min_bst seen pokemon w c w' :
  screen min_bst seen pokemon w = (Ok (Keep c), w') → min_bst ≤ c_total c.
Proof.
  unfold screen, mbind, M_bind, bind, ret.
  destruct (is_excluded_pokemon _); [done |].
  destruct (get_pokemon_details _ 3 1 w) as [[[data |] | e] w1]; [| done | done].
  destruct (get_national_dex_number _ _ w1) as [[dex | e] w2]; [| done].
  destruct (is_legendary_or_mythical _ _ w2) as [[[] | e] w3]; [done | | done].
  intros Hrun.
  apply screen_threshold_cases in Hrun as [(? & _) | (Hbst & Hrun)]; [done |].
  apply screen_signature_cases in Hrun as [? | [? | [[= ->] _]]]; done.
Qed.

(** What one iteration does to the counters, and which failures it counts. *)
Lemma analyse_counts min_bst type_chart pokemon a w v a' w' :
  analyse min_bst type_chart pokemon a w = (v, a', w') →
  match v with
  | Included _ row =>
      results a' = (results a ++ [row])%list ∧ error_count a' = error_count a ∧
      min_bst ≤ base_stats_total row
  | Errored e =>
      results a' = results a ∧ error_count a' = S (error_count a) ∧
      (e = KeyError ∨ e = ValueError ∨ e = OverflowError ∨
       e = FailedAfter "data" 3)
  | _ => results a' = results a ∧ error_count a' = error_count a
  end.
Proof.
  unfold analyse.
  destruct (screen min_bst (processed_signatures a) pokemon w)
    as [[[why | c] | e] w1] eqn:Hscreen.
  - intros [= <- <- <-].
    assert (match why with Included _ _ | Errored _ => False | _ => True end) as Hwhy.
    { unfold screen, mbind, M_bind, bind, ret in Hscreen.
      destruct (is_excluded_pokemon _); [by simplify_eq |].
      destruct (get_pokemon_details _ 3 1 w) as [[[data |] | e] w2];
        [| by simplify_eq | done].
      destruct (get_national_dex_number _ _ w2) as [[dex | e] w3]; [| done].
      destruct (is_legendary_or_mythical _ _ w3) as [[[] | e] w4];
        [by simplify_eq | | done].
      apply screen_threshold_cases in Hscreen as [(? & _) | (_ & Hscreen)];
        [by simplify_eq |].
      apply screen_signature_cases in Hscreen as [? | [? | [? _]]]; by simplify_eq. }
    by destruct why.
  - apply screen_keep_total in Hscreen. unfold accept.
    destruct (calculate_defensive_effectiveness _ type_chart).
    + by intros [= <- <- <-].
    + intros [= <- <- <-]. simpl. split_and!; try done. by left.
  - intros [= <- <- <-]. simpl. split_and!; try done.
    right. by apply screen_raises in Hscreen.
Qed.

(** *** An unreachable service *)








Lemma analyse_all_rows min_bst type_chart :
  ∀ all_pokemon a w vs a' w',
    analyse_all min_bst type_chart all_pokemon a w = (vs, a', w') →
    Forall (fun row => min_bst ≤ base_stats_total row) (results a) →
    Forall (fun row => min_bst ≤ base_stats_total row) (results a').
Proof.
  induction all_pokemon as [| pokemon rest IH]; intros a w vs a' w'; simpl.
  - by intros [= <- <- <-].
  - destruct (analyse min_bst type_chart pokemon a w) as [[v a1] w1] eqn:Hstep.
    destruct (analyse_all min_bst type_chart rest a1 w1) as [[vs1 a2] w2] eqn:Hrest.
    intros [= <- <- <-] Hrows.
    apply analyse_counts in Hstep. apply (IH _ _ _ _ _ Hrest).
    destruct v; try (destruct Hstep as [-> _]; done).
    destruct Hstep as (-> & _ & Hbst). apply Forall_app. by repeat constructor.
Qed.

(** X20: every row of the report has a base-stat total of at least the
    configured minimum. *)
Theorem main_rows_meet_threshold
    (include_forms : bool) (min_bst : Z) (type_chart : gmap string relations)
    (all_pokemon : list listing) (w : world) (report : list result_row) :
  fst (main include_forms min_bst type_chart all_pokemon w) = Some report →
  Forall (fun row => min_bst ≤ base_stats_total row) report.
Proof.
  unfold main.
  destruct (analyse_all _ _ _ _ _) as [[vs a] w'] eqn:Hrun.
  apply analyse_all_rows in Hrun; [| constructor].
  destruct (results a) as [| row rows] eqn:Hres; [done |].
  intros [= <-].
  assert (Permutation (row :: rows) (sort_values (row :: rows))) as Hperm.
  { generalize (row :: rows). intros l.
    induction l as [| x l IH]; simpl; [done |].
    rewrite <- insert_row_perm. by constructor. }
  by rewrite <- Hperm.
Qed.

Lemma main_rows_meet_threshold_witness :
  ∃ report,
    fst (main false 300 sample_chart
           [Listing "pikachu" (pokemon_url "pikachu")] pikachu_world) = Some report ∧
    Forall (fun row => 300 ≤ base_stats_total row) report.
Proof.
  eexists. split; [vm_compute; reflexivity |].
  eapply (main_rows_meet_threshold false 300 sample_chart
            [Listing "pikachu" (pokemon_url "pikachu")] pikachu_world).
  vm_compute. reflexivity.
Defined.

(** ** More on the score, the legendary check and the species lookup *)

(** X21: the score lies between the number of distinct attacking types the
    entity's types list as resisted or without effect and twice that
    number; it exceeds the distinct count by the number of types that end
    up both in the immune set and in a resistance set. *)
Theorem score_between_distinct_and_double
    (type_chart : gmap string relations) (pokemon_types : list string) (s : tiers) :
  process_types pokemon_types type_chart empty_tiers = Some s →
  calculate_defensive_effectiveness pokemon_types type_chart
  = Some (size (resisted_names pokemon_types type_chart) + size (counted_twice s))%nat ∧
  counted_twice s ⊆ resisted_names pokemon_types type_chart ∧
  (size (resisted_names pokemon_types type_chart) ≤ tiers_total s
   ≤ 2 * size (resisted_names pokemon_types type_chart))%nat.
Proof.
  intros Hrun.
  pose proof (score_counts_overlap _ _ _ Hrun) as Hscore.
  destruct (process_types_resisted _ _ _ _ Hrun) as [Hnames _]; [done |].
  assert (counted_twice s ⊆ resisted_names pokemon_types type_chart) as Hsub.
  { intros y. unfold counted_twice. rewrite elem_of_intersection.
    intros [Hy _]. rewrite <- (union_empty_l_L (resisted_names _ _)).
    change ∅ with (immunities empty_tiers ∪ quarter_damage empty_tiers
                   ∪ half_damage empty_tiers) at 1.
    fold (resisted empty_tiers). rewrite <- Hnames.
    unfold resisted. rewrite !elem_of_union. tauto. }
  unfold calculate_defensive_effectiveness. rewrite Hrun. simpl.
  split_and!; [by rewrite Hscore | done | lia |].
  apply subseteq_size in Hsub. lia.
Qed.

Lemma score_between_distinct_and_double_witness :
  ∃ s, process_types ["dragon"; "ground"] sample_chart empty_tiers = Some s ∧
       (size (resisted_names ["dragon"; "ground"] sample_chart) ≤ tiers_total s
        ≤ 2 * size (resisted_names ["dragon"; "ground"] sample_chart))%nat.
Proof.
  eexists. split; [vm_compute; reflexivity |].
  apply (score_between_distinct_and_double sample_chart ["dragon"; "ground"]).
  vm_compute. reflexivity.
Defined.

(** X22: for an entity that is not a special form the legendary check
    consults only the entity's own species record: it makes at most three
    requests and leaves the detail cache as it was. *)
Theorem is_legendary_or_mythical_own_record_only
    (pokemon_name : string) (pokemon_id : Z) (w : world) :
  is_special_form pokemon_name = false →
  ∃ answer w',
    is_legendary_or_mythical pokemon_name pokemon_id w = (Ok answer, w') ∧
    advances 3 w w' ∧
    pokemon_details_cache w' = pokemon_details_cache w ∧
    (answer = false →
     ∃ own, species_info_cache w' !! pokemon_id = Some own ∧ flagged own = false).
Proof.
  intros Hplain.
  unfold is_legendary_or_mythical, legendary_check, try_except,
    mbind, M_bind, bind, ret, flagged.
  destruct (get_species_info pokemon_id 3 1 w) as [[own | e] w1] eqn:Hown.
  - pose proof (get_species_info_advances _ _ _ _ _ _ Hown) as Hadv.
    apply get_species_info_effect in Hown as (_ & Hpc & _ & _ & Hcache).
    destruct (is_legendary own || is_mythical own) eqn:Hflag.
    + exists true, w1. by split_and!.
    + rewrite Hplain. exists false, w1. split_and!; try done.
      intros _. by exists own.
  - pose proof (get_species_info_advances _ _ _ _ _ _ Hown) as Hadv.
    apply get_species_info_effect in Hown as (_ & Hpc & _).
    exists true, w1. by split_and!.
Qed.

Lemma is_legendary_or_mythical_own_record_only_witness :
  ∃ answer w',
    is_legendary_or_mythical "pikachu" 25 pikachu_world = (Ok answer, w') ∧
    advances 3 pikachu_world w'.
Proof.
  destruct (is_legendary_or_mythical_own_record_only "pikachu" 25 pikachu_world)
    as (answer & w' & Hrun & Hadv & _).
  - reflexivity.
  - by exists answer, w'.
Defined.




